(** * The mask visualizer of the segmentation notebook

    A shallow embedding of [display_segmentation], the helper defined in
    [pytorch-segmentation.ipynb], and of the tensor and imaging operations it
    calls.  The helper receives two Python objects by reference (the base
    image and the tensor of per-pixel class labels), creates several fresh
    image objects, mutates some of them in place and returns a reference to
    the composite.  Objects therefore live in a store, and every method is a
    computation over that store which either returns a value or raises.

    The function itself is a dozen calls into torch and the imaging library.
    Each call is modelled in two layers: an operation of the imaging core on
    image values (pixel arithmetic, mode and size checks), and the method of
    the object layer that reads its receiver from the store, runs the core
    operation and allocates a new object or overwrites the receiver.  Two
    points of the library are parameters of the development rather than
    definitions: the resampling filter used by [resize], and the initial
    content of a palette. *)

From Stdlib Require Import ZArith Lia.
From stdpp Require Import base option list gmap strings.

Local Open Scope Z_scope.

(** ** Machine integers *)

(** A signed 64-bit value (torch's default integer dtype), wrapped. *)
Definition wrap_int64 (x : Z) : Z := (x + 2 ^ 63) mod 2 ^ 64 - 2 ^ 63.

(** An unsigned 8-bit value: the low byte. *)
Definition wrap_uint8 (x : Z) : Z := Z.land x 255.

(** An unsigned 32-bit value (the [UINT32] temporaries of the compositor). *)
Definition wrap_uint32 (x : Z) : Z := x mod 2 ^ 32.

(** The imaging library's saturating store into a byte. *)
Definition clip8 (x : Z) : Z :=
  if x <? 0 then 0 else if 255 <? x then 255 else x.

Definition is_byte (x : Z) : Prop := 0 ≤ x < 256.

Global Instance is_byte_dec x : Decision (is_byte x).
Proof. unfold is_byte. apply _. Defined.

(** Elementwise product and remainder of int64 tensors.  The remainder takes
    the sign of the divisor, as Python's [%] does. *)
Definition torch_mul (a b : Z) : Z := wrap_int64 (a * b).
Definition torch_remainder (a b : Z) : Z := a mod b.

(** ** The color table

    [palette] and [colors] are the two locals computed by the first three
    statements of [display_segmentation]: a column of the 21 class indices is
    multiplied (with broadcasting) by the row of three multipliers, reduced
    modulo 255 and cast to unsigned bytes. *)

Definition palette : list Z := [2 ^ 25 - 1; 2 ^ 15 - 1; 2 ^ 21 - 1].

Definition class_indices : list Z := Z.of_nat <$> seq 0 21.

Definition colors_int64 : list (list Z) :=
  (λ i, torch_mul i <$> palette) <$> class_indices.

Definition colors : list (list Z) :=
  fmap (M := list) (fmap (M := list) (λ v, wrap_uint8 (torch_remainder v 255)))
       colors_int64.

(** [bytes(colors)]: the array's buffer in row-major order. *)
Definition array_bytes (a : list (list Z)) : list Z := concat a.

(** ** Objects *)

Inductive dtype := int64 | uint8.

(** A two-dimensional tensor: [t_shape] is (rows, columns) and [t_data] is
    row-major. *)
Record tensor := Tensor {
  t_dtype : dtype;
  t_shape : nat * nat;
  t_data : list Z
}.

Inductive mode := L | P | RGB | RGBA.

Definition rgba : Type := Z * Z * Z * Z.

(** Pixel storage: one byte per pixel for modes [L] and [P], four bytes per
    pixel for [RGB] (fourth byte unused) and [RGBA]. *)
Inductive raster := Image8 (px : list Z) | Image32 (px : list rgba).

(** [im_size] is (width, height); the raster is row-major. *)
Record image := Image {
  im_mode : mode;
  im_size : nat * nat;
  im_data : raster;
  im_palette : option (list rgba)
}.

Inductive obj := OTensor (t : tensor) | OImage (im : image).

(** The exceptions that the calls can raise.  [Unmodelled] stands for a case
    of the library that this development does not describe (an image mode
    that [display_segmentation] never hands to the operation in question);
    it is shown below never to be raised for an RGB base image. *)
Inductive exn :=
  | ValueError (msg : string)
  | TypeError (msg : string)
  | AttributeError
  | Unmodelled.

Inductive result (A : Type) := Ok (a : A) | Raise (e : exn).
Arguments Ok {A} a.
Arguments Raise {A} e.

Global Instance dtype_eq_dec : EqDecision dtype.
Proof. solve_decision. Defined.
Global Instance mode_eq_dec : EqDecision mode.
Proof. solve_decision. Defined.
Global Instance raster_eq_dec : EqDecision raster.
Proof. solve_decision. Defined.
Global Instance image_eq_dec : EqDecision image.
Proof. solve_decision. Defined.
Global Instance exn_eq_dec : EqDecision exn.
Proof. solve_decision. Defined.

Definition raster_length (d : raster) : nat :=
  match d with Image8 px => length px | Image32 px => length px end.

(** [Image.tobytes]: the raster as a flat byte string. *)
Definition tobytes (im : image) : list Z :=
  match im_data im with
  | Image8 px => px
  | Image32 px =>
      match im_mode im with
      | RGB => px ≫= (λ '(r, g, b, _), [r; g; b])
      | _ => px ≫= (λ '(r, g, b, a), [r; g; b; a])
      end
  end.

(** ** The imaging core: operations on image values *)

(** *** The compositor's per-pixel arithmetic *)

Definition PRECISION_BITS : Z := 7.

Definition SHIFTFORDIV255 (a : Z) : Z := Z.shiftr (Z.shiftr a 8 + a) 8.

Definition composite_channel (s d coef1 coef2 : Z) : Z :=
  let tmp := wrap_uint32 (s * coef1 + d * coef2) in
  wrap_uint8
    (Z.shiftr (SHIFTFORDIV255 (tmp + Z.shiftl 128 PRECISION_BITS))
              PRECISION_BITS).

(** One pixel of [alpha_composite]: [dst] is the pixel of the first image
    (underneath), [src] the pixel of the second (on top). *)
Definition composite_pixel (dst src : rgba) : rgba :=
  let '(dr, dg, db, da) := dst in
  let '(sr, sg, sb, sa) := src in
  if sa =? 0 then dst
  else
    let blend := wrap_uint32 (da * (255 - sa)) in
    let outa255 := wrap_uint32 (sa * 255 + blend) in
    let coef1 :=
      wrap_uint32 (sa * 255 * 255 * Z.shiftl 1 PRECISION_BITS / outa255) in
    let coef2 := wrap_uint32 (255 * Z.shiftl 1 PRECISION_BITS - coef1) in
    (composite_channel sr dr coef1 coef2,
     composite_channel sg dg coef1 coef2,
     composite_channel sb db coef1 coef2,
     wrap_uint8 (SHIFTFORDIV255 (outa255 + 128))).

(** The channel arithmetic when an opaque pixel lies under a pixel of alpha
    128: the two coefficients are then constants. *)
Definition blend_half (s d : Z) : Z := composite_channel s d 16384 16256.

Definition bytes : list Z := Z.of_nat <$> seq 0 256.

(** The check, for one pair of bytes, that [blend_half] is the weighted mean
    with weights 128/255 and 127/255 rounded to nearest, and the plain mean
    rounded down or up. *)
Definition blend_half_ok (d s : Z) : bool :=
  let c := blend_half s d in
  (c =? (127 * d + 128 * s + 127) / 255) &&
  ((c =? (d + s) / 2) || (c =? (d + s + 1) / 2)).

(** [Image.alpha_composite(im1, im2)] on values: the first image must be
    RGBA, the second must agree with it in mode and size. *)
Definition alpha_composite_image (dst src : image) : result image :=
  if decide (im_mode dst = RGBA) then
    if decide (im_mode src = RGBA ∧ im_size dst = im_size src) then
      match im_data dst, im_data src with
      | Image32 d, Image32 s =>
          Ok (Image RGBA (im_size dst) (Image32 (zip_with composite_pixel d s))
                    None)
      | _, _ => Raise Unmodelled
      end
    else Raise (ValueError "images do not match")
  else Raise (ValueError "image has wrong mode").

(** *** Tensor to image *)

(** [Tensor.byte()]: the cast to unsigned 8-bit keeps the low byte. *)
Definition byte_tensor (t : tensor) : tensor :=
  Tensor uint8 (t_shape t) (wrap_uint8 <$> t_data t).

(** [Image.fromarray] of a two-dimensional array: unsigned bytes give a mode
    [L] image whose size is (columns, rows). *)
Definition fromarray_image (t : tensor) : result image :=
  match t_dtype t with
  | uint8 =>
      Ok (Image L ((t_shape t).2, (t_shape t).1) (Image8 (t_data t)) None)
  | int64 => Raise (TypeError "Cannot handle this data type")
  end.

(** *** Alpha band *)

Definition set_alpha (alpha : Z) (p : rgba) : rgba :=
  let '(r, g, b, _) := p in (r, g, b, clip8 alpha).

(** [Image.putalpha] with a constant: an RGB image is promoted to RGBA in
    place, then band 3 is filled. *)
Definition putalpha_image (alpha : Z) (im : image) : result image :=
  match im_mode im, im_data im with
  | RGB, Image32 px | RGBA, Image32 px =>
      Ok (Image RGBA (im_size im) (Image32 (set_alpha alpha <$> px))
                (im_palette im))
  | _, _ => Raise Unmodelled
  end.

(** ** Class scores and their argmax

    The notebook obtains its labels as [output.argmax(0)], where [output] is
    the network's tensor of class scores, of shape (classes, height, width).
    Scores are floating-point numbers; they are kept abstract here, with the
    comparison that argmax uses as a parameter. *)

Section Scores.

Variable score : Type.
Variable greater : score → score → bool.

(** A three-dimensional tensor of scores: [s_shape] is (classes, rows,
    columns) and [s_data] is row-major. *)
Record score_tensor := ScoreTensor {
  s_shape : nat * nat * nat;
  s_data : list score
}.

(** One step of the scan for the maximum: the state is the index of the best
    element so far, that element, and the index of the next element. *)
Definition argmax_step (acc : nat * score * nat) (x : score)
    : nat * score * nat :=
  let '(best, top, i) := acc in
  if greater x top then (i, x, S i) else (best, top, S i).

(** The index of the first maximal element; there is none in an empty
    list. *)
Definition argmax (xs : list score) : option nat :=
  match xs with
  | [] => None
  | x :: rest => Some (fold_left argmax_step rest (0%nat, x, 1%nat)).1.1
  end.

(** The scores of all classes at pixel [p]. *)
Definition class_scores (o : score_tensor) (p : nat) : list score :=
  let '(c, h, w) := s_shape o in
  omap (λ k, s_data o !! (k * (h * w) + p)%nat) (seq 0 c).

(** [o.argmax(0)]: the int64 tensor of the best class at each pixel. *)
Definition argmax0 (o : score_tensor) : option tensor :=
  let '(c, h, w) := s_shape o in
  labels ← mapM (λ p, Z.of_nat <$> argmax (class_scores o p))
                (seq 0 (h * w));
  Some (Tensor int64 (h, w) labels).

End Scores.

Arguments s_shape {score} _.
Arguments s_data {score} _.
Arguments ScoreTensor {score} _ _.

(** ** Stores

    Objects are referred to by address. *)

Definition loc : Type := positive.

(** *** Example stores

    The base image is at address 1 and the label tensor at address 2. *)

Definition white : rgba := (255, 255, 255, 255).

(** A 2 × 2 white base image and a 1 × 1 label tensor of class 0. *)
Definition white_base : image :=
  Image RGB (2%nat, 2%nat) (Image32 [white; white; white; white]) None.

Definition one_label : tensor := Tensor int64 (1%nat, 1%nat) [0].

Definition white_store : gmap loc obj :=
  {[ 1%positive := OImage white_base; 2%positive := OTensor one_label ]}.

(** A base image without area and a label tensor without elements. *)
Definition empty_base : image :=
  Image RGB (0%nat, 0%nat) (Image32 []) None.

Definition empty_labels : tensor := Tensor int64 (0%nat, 0%nat) [].

Definition empty_store : gmap loc obj :=
  {[ 1%positive := OImage empty_base; 2%positive := OTensor empty_labels ]}.

(** A label tensor as large as the base image: [resize] copies. *)
Definition four_labels : tensor := Tensor int64 (2%nat, 2%nat) [0; 0; 0; 0].

Definition uniform_store : gmap loc obj :=
  {[ 1%positive := OImage white_base; 2%positive := OTensor four_labels ]}.

(** A label beyond one byte. *)
Definition wide_label : tensor := Tensor int64 (1%nat, 1%nat) [261].

Definition wide_store : gmap loc obj :=
  {[ 1%positive := OImage white_base; 2%positive := OTensor wide_label ]}.

(** The white base image as RGBA, fully transparent. *)
Definition clear : rgba := (255, 255, 255, 0).

Definition clear_base : image :=
  Image RGBA (2%nat, 2%nat) (Image32 [clear; clear; clear; clear]) None.

Definition clear_store : gmap loc obj :=
  {[ 1%positive := OImage clear_base; 2%positive := OTensor one_label ]}.

(** Integer scores for three classes on one row of two pixels, and the
    labels that their argmax gives; the second class wins the tie at the
    first pixel, the first class the tie at the second. *)
Definition small_scores : score_tensor Z :=
  ScoreTensor (3%nat, 1%nat, 2%nat) [1; 5; 7; 5; 7; 2].

Definition small_labels : tensor := Tensor int64 (1%nat, 2%nat) [1; 0].

Definition wide_base : image :=
  Image RGB (2%nat, 1%nat) (Image32 [white; white]) None.

Definition small_store : gmap loc obj :=
  {[ 1%positive := OImage wide_base; 2%positive := OTensor small_labels ]}.

(** A filter that ignores its source. *)
Definition flat_filter (src_size : nat * nat) (px : list Z)
    (size : nat * nat) (x y : nat) : Z := 99.

(** *** A resampling filter and two palette fills, for examples

    Nearest-neighbour sampling at the centre of the destination pixel, a
    palette that starts as a grey ramp and a palette that starts black. *)

Definition nearest_neighbour (src_size : nat * nat) (px : list Z)
    (size : nat * nat) (x y : nat) : Z :=
  let sx := (((2 * x + 1) * src_size.1) `div` (2 * size.1))%nat in
  let sy := (((2 * y + 1) * src_size.2) `div` (2 * size.2))%nat in
  default 0 (px !! (sy * src_size.1 + sx)%nat).

Definition ramp_entry (i : nat) : Z * Z * Z :=
  (Z.of_nat i, Z.of_nat i, Z.of_nat i).

Definition zero_entry (i : nat) : Z * Z * Z := (0, 0, 0).

Section Library.

(** The two points on which the imaging library's behaviour is left open:
    the resampling filter that [resize] applies by default to a mode [L]
    image ([resample src_size src dst_size x y] is the filtered sample for
    the destination pixel (x, y), before it is clipped to a byte), and the
    content of a palette entry before any data has been unpacked into it. *)
Variable resample : nat * nat → list Z → nat * nat → nat → nat → Z.
Variable fresh_entry : nat → Z * Z * Z.

(** *** Resizing *)

Definition resample_band (src_size : nat * nat) (px : list Z)
    (size : nat * nat) : list Z :=
  (λ i, clip8 (resample src_size px size (i `mod` size.1) (i `div` size.1))%nat)
    <$> seq 0 (size.1 * size.2).

(** [Image.resize(size)]: an image that already has the requested size is
    copied; otherwise the core refuses an empty target and resamples. *)
Definition resize_image (size : nat * nat) (im : image) : result image :=
  if decide (im_size im = size) then Ok im
  else if decide (size.1 < 1 ∨ size.2 < 1)%nat
  then Raise (ValueError "height and width must be > 0")
  else
    match im_mode im, im_data im with
    | L, Image8 px =>
        Ok (Image L size (Image8 (resample_band (im_size im) px size)) None)
    | _, _ => Raise Unmodelled
    end.

(** *** Palettes *)

(** A new palette has 256 entries; the supplied RGB data overwrites the
    leading ones, three bytes per entry, all opaque. *)
Definition unpack_palette (data : list Z) : list rgba :=
  (λ i, match data !! (3 * i)%nat, data !! (3 * i + 1)%nat,
              data !! (3 * i + 2)%nat with
        | Some r, Some g, Some b => (r, g, b, 255)
        | _, _, _ =>
            let '(r, g, b) := fresh_entry i in
            (wrap_uint8 r, wrap_uint8 g, wrap_uint8 b, 255)
        end) <$> seq 0 256.

(** [Image.putpalette(data)]: allowed on modes [L] and [P]; the image
    becomes mode [P]. *)
Definition putpalette_image (data : list Z) (im : image) : result image :=
  match im_mode im with
  | L | P =>
      if decide (256 < length data `div` 3)%nat
      then Raise (ValueError "invalid palette size")
      else Ok (Image P (im_size im) (im_data im) (Some (unpack_palette data)))
  | _ => Raise (ValueError "illegal image mode")
  end.

Definition palette_entry (pal : list rgba) (v : Z) : rgba :=
  default ((0, 0, 0, 255) : rgba) (pal !! Z.to_nat v).

(** [Image.convert("RGBA")]. *)
Definition convert_image (m : mode) (im : image) : result image :=
  match m with
  | RGBA =>
      match im_mode im, im_data im, im_palette im with
      | P, Image8 px, Some pal =>
          Ok (Image RGBA (im_size im) (Image32 (palette_entry pal <$> px)) None)
      | L, Image8 px, _ =>
          Ok (Image RGBA (im_size im) (Image32 ((λ v, (v, v, v, 255)) <$> px))
                    None)
      | RGB, Image32 px, _ =>
          Ok (Image RGBA (im_size im) (Image32 (set_alpha 255 <$> px)) None)
      | RGBA, Image32 px, _ => Ok im
      | _, _, _ => Raise Unmodelled
      end
  | _ => Raise Unmodelled
  end.

(** ** The object layer: methods over the store *)

Definition M (A : Type) : Type := gmap loc obj → result A * gmap loc obj.

Definition ret {A} (a : A) : M A := λ σ, (Ok a, σ).

Definition raise {A} (e : exn) : M A := λ σ, (Raise e, σ).

Definition bind {A B} (f : A → M B) (m : M A) : M B :=
  λ σ, match m σ with
       | (Ok a, σ') => f a σ'
       | (Raise e, σ') => (Raise e, σ')
       end.

Global Instance M_bind : MBind M := @bind.

(** The outcome of a call to the imaging core. *)
Definition lift {A} (r : result A) : M A :=
  match r with Ok a => ret a | Raise e => raise e end.

(** A new object gets an address that is not in use. *)
Definition alloc (o : obj) : M loc :=
  λ σ, let l := fresh (dom σ) in (Ok l, <[l := o]> σ).

(** In-place update of the object at [l]. *)
Definition store_at (l : loc) (o : obj) : M unit :=
  λ σ, (Ok tt, <[l := o]> σ).

(** Using a reference as an image (as a tensor) when it is not one is an
    [AttributeError]: the method looked up does not exist. *)
Definition get_image (l : loc) : M image :=
  λ σ, match σ !! l with
       | Some (OImage im) => (Ok im, σ)
       | _ => (Raise AttributeError, σ)
       end.

Definition get_tensor (l : loc) : M tensor :=
  λ σ, match σ !! l with
       | Some (OTensor t) => (Ok t, σ)
       | _ => (Raise AttributeError, σ)
       end.

(** [t.byte()]: a tensor that is already unsigned 8-bit is returned as it
    is, otherwise a new tensor is made. *)
Definition Tensor_byte (t : loc) : M loc :=
  x ← get_tensor t;
  if decide (t_dtype x = uint8) then ret t
  else alloc (OTensor (byte_tensor x)).

(** [t.cpu()] on a tensor in host memory is the tensor itself and
    [t.numpy()] is a view of the same memory. *)
Definition Tensor_cpu (t : loc) : M loc := get_tensor t;; ret t.
Definition Tensor_numpy (t : loc) : M loc := get_tensor t;; ret t.

(** [Image.fromarray(a)]: the new image reads the array's memory and is
    flagged read-only, so that a mutating method would first copy it; its
    pixels are never written through.  It is a separate object here. *)
Definition Image_fromarray (a : loc) : M loc :=
  x ← get_tensor a;
  im ← lift (fromarray_image x);
  alloc (OImage im).

(** What the attribute [size] of an object is: for an image the pair
    (width, height); for a tensor the bound method of that name. *)
Inductive size_attr := Size (s : nat * nat) | SizeMethod.

Definition size_of (o : option obj) : result size_attr :=
  match o with
  | Some (OImage im) => Ok (Size (im_size im))
  | Some (OTensor _) => Ok SizeMethod
  | None => Raise AttributeError
  end.

Definition Image_size (l : loc) : M size_attr :=
  λ σ, (size_of (σ !! l), σ).

(** [resize] starts with [tuple(size)]: a method is not iterable. *)
Definition not_iterable : exn :=
  TypeError "'builtin_function_or_method' object is not iterable".

Definition as_pair (size : size_attr) : result (nat * nat) :=
  match size with
  | Size s => Ok s
  | SizeMethod => Raise not_iterable
  end.

Definition Image_resize (l : loc) (size : size_attr) : M loc :=
  im ← get_image l;
  s ← lift (as_pair size);
  im' ← lift (resize_image s im);
  alloc (OImage im').

Definition Image_putpalette (l : loc) (data : list (list Z)) : M unit :=
  im ← get_image l;
  im' ← lift (putpalette_image (array_bytes data) im);
  store_at l (OImage im').

Definition Image_copy (l : loc) : M loc :=
  im ← get_image l; alloc (OImage im).

Definition Image_putalpha (l : loc) (alpha : Z) : M unit :=
  im ← get_image l;
  im' ← lift (putalpha_image alpha im);
  store_at l (OImage im').

Definition Image_convert (l : loc) (m : mode) : M loc :=
  im ← get_image l;
  im' ← lift (convert_image m im);
  alloc (OImage im').

Definition Image_alpha_composite (l1 l2 : loc) : M loc :=
  im1 ← get_image l1;
  im2 ← get_image l2;
  im ← lift (alpha_composite_image im1 im2);
  alloc (OImage im).

(** ** The visualizer *)

(** The local variables of [display_segmentation] that refer to images, as
    they stand when the function returns. *)
Record locals := Locals {
  alpha_image : loc;
  r : loc;
  seg_image : loc
}.

(** The body of [display_segmentation], statement by statement.  The local
    [r] is bound twice in the source: [r] is the paletted mask and [r'] the
    RGBA mask that replaces it. *)
Definition display_segmentation_body (input_image output_predictions : loc)
    : M locals :=
  t ← Tensor_byte output_predictions;
  t ← Tensor_cpu t;
  a ← Tensor_numpy t;
  r ← Image_fromarray a;
  size ← Image_size input_image;
  r ← Image_resize r size;
  Image_putpalette r colors;;
  alpha_image ← Image_copy input_image;
  Image_putalpha alpha_image 255;;
  r' ← Image_convert r RGBA;
  Image_putalpha r' 128;;
  seg_image ← Image_alpha_composite alpha_image r';
  ret (Locals alpha_image r' seg_image).

Definition display_segmentation (input_image output_predictions : loc)
    : M loc :=
  ls ← display_segmentation_body input_image output_predictions;
  ret (seg_image ls).

(** ** The same pipeline on values

    [render] chains the imaging core's operations in the order in which
    [display_segmentation_body] reaches them, on the contents of the two
    arguments.  It is what the store-passing program is shown to compute. *)

Definition rbind {A B} (f : A → result B) (r : result A) : result B :=
  match r with Ok a => f a | Raise e => Raise e end.

Global Instance result_bind : MBind result := @rbind.

Definition as_tensor (o : option obj) : result tensor :=
  match o with Some (OTensor t) => Ok t | _ => Raise AttributeError end.

Definition as_image (o : option obj) : result image :=
  match o with Some (OImage im) => Ok im | _ => Raise AttributeError end.

(** The first use of the base image is [input_image.size], handed to
    [resize]: an image goes through, a tensor makes [resize] fail on its
    [size] method. *)
Definition as_base (o : option obj) : result image :=
  match o with
  | Some (OImage im) => Ok im
  | Some (OTensor _) => Raise not_iterable
  | None => Raise AttributeError
  end.

Definition to_byte (t : tensor) : tensor :=
  if decide (t_dtype t = uint8) then t else byte_tensor t.

Record layers := Layers {
  base_layer : image;
  mask_layer : image;
  composite : image
}.

Definition render (input_image output_predictions : option obj)
    : result layers :=
  t ← as_tensor output_predictions;
  r ← fromarray_image (to_byte t);
  base ← as_base input_image;
  r ← resize_image (im_size base) r;
  r ← putpalette_image (array_bytes colors) r;
  a ← putalpha_image 255 base;
  r ← convert_image RGBA r;
  r ← putalpha_image 128 r;
  s ← alpha_composite_image a r;
  Ok (Layers a r s).

(** The size of the image made from a label tensor, the labels that the
    mask holds once it has the base image's size, and the color that the
    installed palette gives a label. *)
Definition label_image_size (t : tensor) : nat * nat :=
  ((t_shape t).2, (t_shape t).1).

Definition mask_labels (size : nat * nat) (t : tensor) : list Z :=
  if decide (label_image_size t = size) then t_data (to_byte t)
  else resample_band (label_image_size t) (t_data (to_byte t)) size.

Definition installed_palette : list rgba := unpack_palette (array_bytes colors).

Definition mask_color (v : Z) : rgba := palette_entry installed_palette v.

(** An RGB base image with pixels [px]. *)
Definition rgb_image (im : image) (px : list rgba) : Prop :=
  im_mode im = RGB ∧ im_data im = Image32 px.

Definition zero_area (size : nat * nat) : Prop :=
  (size.1 < 1 ∨ size.2 < 1)%nat.

Definition byte_pixel (p : rgba) : Prop :=
  is_byte p.1.1.1 ∧ is_byte p.1.1.2 ∧ is_byte p.1.2.

(** [c] is the mean of [b] and [m], rounded down or up. *)
Definition half_blend (c b m : Z) : Prop :=
  c = (b + m) / 2 ∨ c = (b + m + 1) / 2.

(** The layers that [render] produces for an RGB base image. *)
Definition expected_layers (base : image) (px : list rgba) (t : tensor)
    : layers :=
  let a := set_alpha 255 <$> px in
  let m := set_alpha 128 <$> (mask_color <$> mask_labels (im_size base) t) in
  Layers (Image RGBA (im_size base) (Image32 a) (im_palette base))
         (Image RGBA (im_size base) (Image32 m) None)
         (Image RGBA (im_size base) (Image32 (zip_with composite_pixel a m))
                None).

(** [resize] refuses the request: the base image has no area and the label
    image has another size. *)
Definition resize_refuses (base : image) (t : tensor) : Prop :=
  label_image_size t ≠ im_size base ∧ zero_area (im_size base).

(** The raster has one entry per pixel. *)
Definition image_wf (im : image) : Prop :=
  raster_length (im_data im) = ((im_size im).1 * (im_size im).2)%nat.

Definition tensor_wf (t : tensor) : Prop :=
  length (t_data t) = ((t_shape t).1 * (t_shape t).2)%nat.

(** The composite's pixel over base pixel [b] where the mask's label is
    [v]. *)
Definition overlay (b : rgba) (v : Z) : rgba :=
  composite_pixel (set_alpha 255 b) (set_alpha 128 (mask_color v)).

(** A label tensor with every value replaced by its remainder modulo 256. *)
Definition reduce_labels (t : tensor) : tensor :=
  Tensor (t_dtype t) (t_shape t) ((λ v, v mod 256) <$> t_data t).

(** What a caller can observe of an outcome: the object behind the returned
    reference, or the exception. *)
Definition observe (o : result loc) (σ : gmap loc obj)
    : result (option obj) :=
  match o with Ok l => Ok (σ !! l) | Raise e => Raise e end.

(** The observation that [render] predicts. *)
Definition rendered (input_image output_predictions : option obj)
    : result (option obj) :=
  ly ← render input_image output_predictions;
  Ok (Some (OImage (composite ly))).

(** Running a computation. *)
Definition outcome {A} (m : M A) (σ : gmap loc obj) : result A := (m σ).1.
Definition final {A} (m : M A) (σ : gmap loc obj) : gmap loc obj := (m σ).2.

(** One call, as the caller sees it. *)
Definition call (input_image output_predictions : loc) (σ : gmap loc obj)
    : result (option obj) :=
  let (o, σ') := display_segmentation input_image output_predictions σ in
  observe o σ'.

(** What [display_segmentation_body] establishes, relative to the store [σ]
    it started from: nothing that existed is changed, and the three locals
    refer to the layers that [render] computes from the arguments' contents;
    if [render] raises, so does the body, with the same exception. *)
Definition body_post (σ : gmap loc obj) (input_image output_predictions : loc)
    (o : result locals) (σ' : gmap loc obj) : Prop :=
  σ ⊆ σ' ∧
  match o, render (σ !! input_image) (σ !! output_predictions) with
  | Ok ls, Ok ly =>
      σ' !! alpha_image ls = Some (OImage (base_layer ly)) ∧
      σ' !! r ls = Some (OImage (mask_layer ly)) ∧
      σ' !! seg_image ls = Some (OImage (composite ly))
  | Raise e, Raise e' => e = e'
  | _, _ => False
  end.

(** The references held by the locals at return are new: none of them was
    in use in the store [σ] that the call started from, and no two of them
    are the same. *)
Definition locals_fresh (σ : gmap loc obj) (o : result locals) : Prop :=
  match o with
  | Ok ls =>
      σ !! alpha_image ls = None ∧ σ !! r ls = None ∧
      σ !! seg_image ls = None ∧
      alpha_image ls ≠ r ls ∧ alpha_image ls ≠ seg_image ls ∧
      r ls ≠ seg_image ls
  | Raise _ => True
  end.

(** A base image with color pixels [px], with or without an alpha band. *)
Definition color_image (im : image) (px : list rgba) : Prop :=
  (im_mode im = RGB ∨ im_mode im = RGBA) ∧ im_data im = Image32 px.

(** [c] is the mean of [b] and [m] with weights 127/255 and 128/255,
    rounded to nearest. *)
Definition weighted_blend (c b m : Z) : Prop :=
  c = (127 * b + 128 * m + 127) / 255.

(** [c] lies between [b] and [m]. *)
Definition between (c b m : Z) : Prop := Z.min b m ≤ c ≤ Z.max b m.

(** Pixel [p] is the blend of base pixel [b] and mask color [m]: each color
    channel is the weighted mean and lies between the two, and the pixel is
    opaque. *)
Definition blended (p b m : rgba) : Prop :=
  (weighted_blend p.1.1.1 b.1.1.1 m.1.1.1 ∧ between p.1.1.1 b.1.1.1 m.1.1.1) ∧
  (weighted_blend p.1.1.2 b.1.1.2 m.1.1.2 ∧ between p.1.1.2 b.1.1.2 m.1.1.2) ∧
  (weighted_blend p.1.2 b.1.2 m.1.2 ∧ between p.1.2 b.1.2 m.1.2) ∧
  p.2 = 255.

(** Two pixels with the same color channels; their fourth bytes are free. *)
Definition same_color (p q : rgba) : Prop := p.1 = q.1.

(** Weakest precondition of a computation for a postcondition on its outcome
    and final store. *)
Definition wp {A} (m : M A) (σ : gmap loc obj)
    (Q : result A → gmap loc obj → Prop) : Prop :=
  Q (outcome m σ) (final m σ).

(** * Properties *)

(** ** Rules for running computations *)

Lemma wp_bind {A B} (m : M A) (f : A → M B) σ Q :
  wp m σ (λ r σ', match r with
                  | Ok a => wp (f a) σ' Q
                  | Raise e => Q (Raise e) σ'
                  end) →
  wp (m ≫= f) σ Q.
Proof.
  unfold wp, outcome, final, mbind, M_bind, bind.
  destruct (m σ) as [[a|e] σ']; simpl; auto.
Qed.

Lemma wp_ret {A} (a : A) σ (Q : result A → gmap loc obj → Prop) :
  Q (Ok a) σ → wp (ret a) σ Q.
Proof. auto. Qed.

Lemma wp_lift {A} (r : result A) σ (Q : result A → gmap loc obj → Prop) :
  Q r σ → wp (lift r) σ Q.
Proof. destruct r; auto. Qed.

Lemma wp_alloc o σ (Q : result loc → gmap loc obj → Prop) :
  (∀ l, σ !! l = None → Q (Ok l) (<[l := o]> σ)) → wp (alloc o) σ Q.
Proof.
  intros H. apply H. apply not_elem_of_dom. apply is_fresh.
Qed.

Lemma wp_store_at l o σ (Q : result unit → gmap loc obj → Prop) :
  Q (Ok tt) (<[l := o]> σ) → wp (store_at l o) σ Q.
Proof. auto. Qed.

Lemma wp_get_image l σ (Q : result image → gmap loc obj → Prop) :
  Q (as_image (σ !! l)) σ → wp (get_image l) σ Q.
Proof.
  unfold wp, outcome, final, get_image.
  destruct (σ !! l) as [[t|im]|]; auto.
Qed.

Lemma wp_get_tensor l σ (Q : result tensor → gmap loc obj → Prop) :
  Q (as_tensor (σ !! l)) σ → wp (get_tensor l) σ Q.
Proof.
  unfold wp, outcome, final, get_tensor.
  destruct (σ !! l) as [[t|im]|]; auto.
Qed.

Lemma wp_Image_size l σ (Q : result size_attr → gmap loc obj → Prop) :
  Q (size_of (σ !! l)) σ → wp (Image_size l) σ Q.
Proof. auto. Qed.

(** ** The body computes [render] and leaves the existing store alone *)

Local Opaque colors.

Ltac wp_step :=
  lazymatch goal with
  | |- wp (_ ≫= _) _ _ => apply wp_bind
  | |- wp (get_image _) _ _ => apply wp_get_image
  | |- wp (get_tensor _) _ _ => apply wp_get_tensor
  | |- wp (Image_size _) _ _ => apply wp_Image_size
  | |- wp (lift _) _ _ => apply wp_lift
  | |- wp (ret _) _ _ => apply wp_ret
  | |- wp (store_at _ _) _ _ => apply wp_store_at
  | |- wp (alloc _) _ _ =>
      let l := fresh "l" in
      let Hl := fresh "Hl" in
      apply wp_alloc; intros l Hl
  end.

Lemma wp_wand {A} (m : M A) σ (Q Q' : result A → gmap loc obj → Prop) :
  wp m σ Q → (∀ r σ', Q r σ' → Q' r σ') → wp m σ Q'.
Proof. unfold wp. auto. Qed.

(** [t.byte()] yields a reference to a tensor holding [to_byte t]; the
    store only grows. *)
Lemma wp_Tensor_byte gi t σ :
  σ !! gi = Some (OTensor t) →
  wp (Tensor_byte gi) σ
     (λ r σ', ∃ a, r = Ok a ∧ σ ⊆ σ' ∧ σ' !! a = Some (OTensor (to_byte t))).
Proof.
  intros Hg. unfold Tensor_byte, to_byte.
  wp_step. wp_step. rewrite Hg. cbn [as_tensor].
  destruct (decide (t_dtype t = uint8)).
  - wp_step. eauto.
  - wp_step. exists l. split; [done|]. split.
    + by apply insert_subseteq.
    + by rewrite lookup_insert_eq.
Qed.

Ltac fresh_facts :=
  repeat match goal with
         | H : <[_ := _]> _ !! _ = None |- _ =>
             apply lookup_insert_None in H as [H ?]
         end.

Ltac store_grows :=
  repeat (apply insert_subseteq_r;
          [eapply lookup_weaken_None; eassumption|]);
  assumption.

Ltac read_store :=
  repeat first
    [ rewrite lookup_insert_eq
    | rewrite lookup_insert_ne by congruence ];
  cbn [as_image as_tensor as_base as_pair size_of mbind result_bind rbind].

Lemma body_run bi gi σ :
  is_Some (σ !! bi) →
  wp (display_segmentation_body bi gi) σ (body_post σ bi gi).
Proof.
  intros [ob Hb].
  unfold display_segmentation_body, body_post, render.
  destruct (σ !! gi) as [[t|?]|] eqn:Hg; cbn [as_tensor mbind result_bind rbind];
    [| by unfold Tensor_byte; do 3 wp_step; rewrite Hg..].
  wp_step. eapply wp_wand; [by apply wp_Tensor_byte|].
  intros ? σ1 (a & -> & Hsub & Ha).
  assert (Hb1 : σ1 !! bi = Some ob) by (by eapply lookup_weaken).
  unfold Tensor_cpu, Tensor_numpy.
  do 3 wp_step. rewrite Ha. cbn [as_tensor]. wp_step.
  do 3 wp_step. rewrite Ha. cbn [as_tensor]. wp_step.
  unfold Image_fromarray.
  do 3 wp_step. rewrite Ha. cbn [as_tensor].
  do 2 wp_step.
  destruct (fromarray_image (to_byte t)) as [i0|e] eqn:Hi0; cbn [rbind]; [|done].
  wp_step.
  (* input_image.size *)
  do 2 wp_step. read_store. rewrite Hb, Hb1.
  (* resize *)
  destruct ob as [?|base]; read_store;
    unfold Image_resize; do 3 wp_step; read_store; do 2 wp_step; read_store;
    [split; [store_grows|done]|].
  do 2 wp_step.
  destruct (resize_image (im_size base) i0) as [i1|e] eqn:Hi1; read_store;
    [|split; [store_grows|done]].
  wp_step. fresh_facts.
  (* putpalette *)
  unfold Image_putpalette. do 3 wp_step. read_store. do 2 wp_step.
  destruct (putpalette_image (array_bytes colors) i1) as [i2|e] eqn:Hi2;
    read_store.
  2:{ split; [store_grows|done]. }
  wp_step.
  (* input_image.copy() *)
  unfold Image_copy. do 3 wp_step. read_store. rewrite Hb1. read_store.
  wp_step. fresh_facts.
  (* putalpha(255) *)
  wp_step. unfold Image_putalpha. do 2 wp_step. read_store. do 2 wp_step.
  destruct (putalpha_image 255 base) as [i3|e] eqn:Hi3; read_store;
    [|split; [store_grows|done]].
  wp_step.
  (* convert *)
  unfold Image_convert. do 3 wp_step. read_store. do 2 wp_step.
  destruct (convert_image RGBA i2) as [i4|e] eqn:Hi4; read_store;
    [|split; [store_grows|done]].
  wp_step. fresh_facts.
  (* putalpha(128) *)
  wp_step. unfold Image_putalpha. do 2 wp_step. read_store. do 2 wp_step.
  destruct (putalpha_image 128 i4) as [i5|e] eqn:Hi5; read_store;
    [|split; [store_grows|done]].
  wp_step.
  (* alpha_composite *)
  unfold Image_alpha_composite. do 3 wp_step. read_store.
  do 2 wp_step. read_store. do 2 wp_step.
  destruct (alpha_composite_image i3 i5) as [i6|e] eqn:Hi6; read_store;
    [|split; [store_grows|done]].
  wp_step. fresh_facts. wp_step.
  split; [store_grows|].
  cbn [alpha_image r seg_image base_layer mask_layer composite].
  read_store. done.
Qed.

Local Transparent colors.

(** ** [render] on an RGB base image *)

Lemma to_byte_dtype t : t_dtype (to_byte t) = uint8.
Proof. unfold to_byte. by case_decide. Qed.

Lemma to_byte_shape t : t_shape (to_byte t) = t_shape t.
Proof. unfold to_byte. by case_decide. Qed.

Lemma fromarray_to_byte t :
  fromarray_image (to_byte t) =
  Ok (Image L (label_image_size t) (Image8 (t_data (to_byte t))) None).
Proof.
  unfold fromarray_image, label_image_size.
  by rewrite to_byte_dtype, to_byte_shape.
Qed.

Lemma colors_length : length (array_bytes colors) = 63%nat.
Proof. reflexivity. Qed.

Lemma putpalette_colors size d :
  putpalette_image (array_bytes colors) (Image L size d None) =
  Ok (Image P size d (Some installed_palette)).
Proof. unfold putpalette_image. rewrite colors_length. done. Qed.

(** With an RGB base image the pipeline can only stop in [resize], and only
    when it is asked for an empty target of another size than the label
    image's. *)
Ltac rsimpl :=
  cbn [mbind result_bind rbind as_tensor as_image as_base
       im_size im_mode im_data im_palette].

Lemma putalpha_rgb v base px :
  rgb_image base px →
  putalpha_image v base =
  Ok (Image RGBA (im_size base) (Image32 (set_alpha v <$> px))
            (im_palette base)).
Proof. intros [Hm Hd]. unfold putalpha_image. by rewrite Hm, Hd. Qed.

Lemma alpha_composite_rgba size d s pd ps :
  alpha_composite_image (Image RGBA size (Image32 d) pd)
                        (Image RGBA size (Image32 s) ps) =
  Ok (Image RGBA size (Image32 (zip_with composite_pixel d s)) None).
Proof.
  unfold alpha_composite_image. rsimpl.
  rewrite decide_True by done. by rewrite decide_True.
Qed.

(** The rest of the pipeline once the mask has the base image's size. *)
Lemma render_tail base px labels :
  rgb_image base px →
  (r ← putpalette_image (array_bytes colors)
         (Image L (im_size base) (Image8 labels) None);
   a ← putalpha_image 255 base;
   r ← convert_image RGBA r;
   r ← putalpha_image 128 r;
   s ← alpha_composite_image a r;
   Ok (Layers a r s)) =
  let a := set_alpha 255 <$> px in
  let m := set_alpha 128 <$> (mask_color <$> labels) in
  Ok (Layers (Image RGBA (im_size base) (Image32 a) (im_palette base))
             (Image RGBA (im_size base) (Image32 m) None)
             (Image RGBA (im_size base) (Image32 (zip_with composite_pixel a m))
                    None)).
Proof.
  intros Hb. rewrite putpalette_colors. rsimpl.
  rewrite (putalpha_rgb _ _ _ Hb). rsimpl.
  unfold convert_image, putalpha_image. rsimpl.
  by rewrite alpha_composite_rgba.
Qed.

Lemma render_rgb base px t :
  rgb_image base px →
  render (Some (OImage base)) (Some (OTensor t)) =
  if decide (label_image_size t ≠ im_size base ∧ zero_area (im_size base))
  then Raise (ValueError "height and width must be > 0")
  else Ok (expected_layers base px t).
Proof.
  intros Hb. unfold render, expected_layers, mask_labels.
  rsimpl. rewrite fromarray_to_byte. rsimpl.
  unfold resize_image, zero_area. rsimpl.
  destruct (decide (label_image_size t = im_size base)) as [Heq|Hne].
  - rewrite decide_False by tauto. rsimpl.
    rewrite Heq. by rewrite (render_tail _ _ _ Hb).
  - destruct (decide ((im_size base).1 < 1 ∨ (im_size base).2 < 1)%nat).
    + by rewrite decide_True.
    + rewrite decide_False by tauto. rsimpl.
      by rewrite (render_tail _ _ _ Hb).
Qed.

(** ** From the body to [display_segmentation] *)

Lemma display_segmentation_final bi gi σ :
  final (display_segmentation bi gi) σ =
  final (display_segmentation_body bi gi) σ.
Proof.
  unfold final, display_segmentation, mbind, M_bind, bind.
  by destruct (display_segmentation_body bi gi σ) as [[ls|e] σ'].
Qed.

Lemma display_segmentation_outcome bi gi σ :
  outcome (display_segmentation bi gi) σ =
  ls ← outcome (display_segmentation_body bi gi) σ; Ok (seg_image ls).
Proof.
  unfold outcome, display_segmentation, mbind, M_bind, bind.
  by destruct (display_segmentation_body bi gi σ) as [[ls|e] σ'].
Qed.

(** The store only grows, and the caller observes what [render] computes
    from the contents of the two arguments. *)
Lemma display_segmentation_run bi gi σ :
  is_Some (σ !! bi) →
  σ ⊆ final (display_segmentation bi gi) σ ∧
  observe (outcome (display_segmentation bi gi) σ)
          (final (display_segmentation bi gi) σ) =
  rendered (σ !! bi) (σ !! gi).
Proof.
  intros Hb. pose proof (body_run bi gi σ Hb) as H.
  unfold wp, body_post in H. destruct H as [Hsub H].
  rewrite display_segmentation_final, display_segmentation_outcome.
  split; [done|]. unfold rendered.
  destruct (outcome (display_segmentation_body bi gi) σ) as [ls|e],
    (render (σ !! bi) (σ !! gi)) as [ly|e']; cbn [observe]; rsimpl;
    try done.
  - destruct H as (_ & _ & H). unfold observe. by rewrite H.
  - by subst.
Qed.

(** ** The color table *)

Lemma torch_mul_exact i k :
  0 ≤ i < 21 → 0 ≤ k < 2 ^ 25 → torch_mul i k = i * k.
Proof.
  intros Hi Hk. unfold torch_mul, wrap_int64.
  rewrite Z.mod_small; [lia|]. split; [nia|].
  assert (i * k < 21 * 2 ^ 25) by nia. lia.
Qed.

Lemma wrap_uint8_mod x : wrap_uint8 x = x mod 256.
Proof.
  unfold wrap_uint8. change 255 with (Z.ones 8). by rewrite Z.land_ones.
Qed.

Lemma wrap_uint8_byte x : is_byte (wrap_uint8 x).
Proof. rewrite wrap_uint8_mod. unfold is_byte. apply Z.mod_pos_bound. lia. Qed.

Lemma wrap_uint8_small x : is_byte x → wrap_uint8 x = x.
Proof. intros H. rewrite wrap_uint8_mod. by apply Z.mod_small. Qed.

(** A table entry: no product overflows and no remainder needs the cast. *)
Lemma color_channel i k :
  0 ≤ i < 21 → 0 ≤ k < 2 ^ 25 →
  wrap_uint8 (torch_remainder (torch_mul i k) 255) = (i * k) mod 255.
Proof.
  intros Hi Hk. rewrite torch_mul_exact by done. unfold torch_remainder.
  apply wrap_uint8_small. unfold is_byte.
  pose proof (Z.mod_pos_bound (i * k) 255). lia.
Qed.

Lemma colors_lookup (i : nat) :
  (i < 21)%nat →
  colors !! i = Some [(Z.of_nat i * (2 ^ 25 - 1)) mod 255;
                      (Z.of_nat i * (2 ^ 15 - 1)) mod 255;
                      (Z.of_nat i * (2 ^ 21 - 1)) mod 255].
Proof.
  intros Hi. unfold colors, colors_int64, class_indices.
  rewrite !list_lookup_fmap, lookup_seq_lt by done.
  cbn [fmap option_fmap option_map list_fmap palette Nat.add].
  by rewrite !color_channel by lia.
Qed.

Lemma installed_palette_head :
  take 21 installed_palette =
  (λ i, ((i * (2 ^ 25 - 1)) mod 255, (i * (2 ^ 15 - 1)) mod 255,
         (i * (2 ^ 21 - 1)) mod 255, 255)) <$> (Z.of_nat <$> seq 0 21).
Proof. vm_compute. reflexivity. Qed.

Lemma mask_color_class (i : nat) :
  (i < 21)%nat →
  mask_color (Z.of_nat i) =
  ((Z.of_nat i * (2 ^ 25 - 1)) mod 255, (Z.of_nat i * (2 ^ 15 - 1)) mod 255,
   (Z.of_nat i * (2 ^ 21 - 1)) mod 255, 255).
Proof.
  intros Hi. unfold mask_color, palette_entry. rewrite Nat2Z.id.
  rewrite <- (lookup_take_lt installed_palette 21 i) by done.
  rewrite installed_palette_head, !list_lookup_fmap, lookup_seq_lt by done.
  reflexivity.
Qed.

(** The first multiplier is 1 modulo 255: the red channel of class [i] is
    [i] itself. *)
Lemma red_channel (i : nat) :
  (i < 21)%nat → (Z.of_nat i * (2 ^ 25 - 1)) mod 255 = Z.of_nat i.
Proof.
  intros Hi. rewrite Z.mul_mod by lia.
  change ((2 ^ 25 - 1) mod 255) with 1. rewrite Z.mul_1_r, Z.mod_mod by lia.
  apply Z.mod_small. lia.
Qed.

Lemma colors_bytes : Forall is_byte (array_bytes colors).
Proof. apply (bool_decide_unpack _). vm_compute. exact I. Qed.

Lemma installed_palette_bytes : Forall byte_pixel installed_palette.
Proof.
  unfold installed_palette, unpack_palette. apply Forall_fmap, Forall_forall.
  intros i _. unfold compose, byte_pixel. cbn beta.
  pose proof colors_bytes as Hc. rewrite Forall_lookup in Hc.
  destruct (array_bytes colors !! (3 * i)%nat) as [r|] eqn:Hr;
    [destruct (array_bytes colors !! (3 * i + 1)%nat) as [g|] eqn:Hg;
     [destruct (array_bytes colors !! (3 * i + 2)%nat) as [b|] eqn:Hb|]|].
  1: by cbn [fst snd]; repeat split; eapply Hc.
  all: destruct (fresh_entry i) as [[r' g'] b'];
    cbn [fst snd]; repeat split; apply wrap_uint8_byte.
Qed.

Lemma mask_color_byte v : byte_pixel (mask_color v).
Proof.
  unfold mask_color, palette_entry.
  destruct (installed_palette !! Z.to_nat v) as [p|] eqn:Hp; cbn.
  - pose proof installed_palette_bytes as H. rewrite Forall_lookup in H.
    by eapply H.
  - by vm_compute.
Qed.

Lemma mask_color_opaque v : (mask_color v).2 = 255.
Proof.
  unfold mask_color, palette_entry.
  destruct (installed_palette !! Z.to_nat v) as [p|] eqn:Hp; cbn; [|done].
  unfold installed_palette, unpack_palette in Hp.
  rewrite list_lookup_fmap in Hp.
  destruct (seq 0 256 !! Z.to_nat v) as [i|]; [|done].
  cbn in Hp. injection Hp as <-.
  repeat case_match; done.
Qed.

(** ** The blend *)

Lemma blend_half_table :
  forallb (λ d, forallb (blend_half_ok d) bytes) bytes = true.
Proof. vm_compute. reflexivity. Qed.

Lemma is_byte_bytes x : is_byte x → In x bytes.
Proof.
  intros [H0 H1]. unfold bytes. apply list_elem_of_In, list_elem_of_fmap.
  exists (Z.to_nat x). split; [lia|]. apply elem_of_seq. lia.
Qed.

Lemma blend_half_checked d s :
  is_byte d → is_byte s → blend_half_ok d s = true.
Proof.
  intros Hd Hs. pose proof blend_half_table as H.
  rewrite forallb_forall in H. specialize (H d (is_byte_bytes d Hd)).
  rewrite forallb_forall in H. exact (H s (is_byte_bytes s Hs)).
Qed.

Lemma blend_half_weighted d s :
  is_byte d → is_byte s →
  blend_half s d = (127 * d + 128 * s + 127) / 255.
Proof.
  intros Hd Hs. pose proof (blend_half_checked d s Hd Hs) as H.
  unfold blend_half_ok in H. apply andb_prop in H as [H _].
  by apply Z.eqb_eq.
Qed.

Lemma blend_half_mean d s :
  is_byte d → is_byte s → half_blend (blend_half s d) d s.
Proof.
  intros Hd Hs. pose proof (blend_half_checked d s Hd Hs) as H.
  unfold blend_half_ok in H. apply andb_prop in H as [_ H].
  apply orb_prop in H as [H|H]; [left|right]; by apply Z.eqb_eq.
Qed.

(** An opaque pixel under a pixel of alpha 128. *)
Lemma composite_pixel_half dr dg db da sr sg sb sa :
  composite_pixel (set_alpha 255 (dr, dg, db, da))
                  (set_alpha 128 (sr, sg, sb, sa)) =
  (blend_half sr dr, blend_half sg dg, blend_half sb db, 255).
Proof. reflexivity. Qed.

(** ** Calls with an RGB base image *)

Lemma call_run bi gi σ :
  call bi gi σ =
  observe (outcome (display_segmentation bi gi) σ)
          (final (display_segmentation bi gi) σ).
Proof.
  unfold call, outcome, final. by destruct (display_segmentation bi gi σ).
Qed.

Lemma observe_Raise o σ e : observe o σ = Raise e → o = Raise e.
Proof. destruct o; cbn; congruence. Qed.

Lemma observe_Ok o σ x :
  observe o σ = Ok (Some x) → ∃ l, o = Ok l ∧ σ !! l = Some x.
Proof. destruct o as [l|]; cbn; [|done]. intros [= H]. eauto. Qed.

Lemma run_rgb σ bi gi base px t :
  σ !! bi = Some (OImage base) → σ !! gi = Some (OTensor t) →
  rgb_image base px →
  if decide (resize_refuses base t)
  then outcome (display_segmentation bi gi) σ =
       Raise (ValueError "height and width must be > 0")
  else ∃ l, outcome (display_segmentation bi gi) σ = Ok l ∧
            final (display_segmentation bi gi) σ !! l =
            Some (OImage (composite (expected_layers base px t))).
Proof.
  intros Hb Hg Hrgb.
  destruct (display_segmentation_run bi gi σ) as [_ H]; [by eexists|].
  rewrite Hb, Hg in H. unfold rendered in H.
  rewrite (render_rgb _ _ _ Hrgb) in H. unfold resize_refuses.
  case_decide; rsimpl.
  - by apply observe_Raise in H.
  - by apply observe_Ok in H.
Qed.

Lemma body_rgb σ bi gi base px t :
  σ !! bi = Some (OImage base) → σ !! gi = Some (OTensor t) →
  rgb_image base px → ¬ resize_refuses base t →
  ∃ ls, outcome (display_segmentation_body bi gi) σ = Ok ls ∧
        let σ' := final (display_segmentation_body bi gi) σ in
        let ly := expected_layers base px t in
        σ' !! alpha_image ls = Some (OImage (base_layer ly)) ∧
        σ' !! r ls = Some (OImage (mask_layer ly)) ∧
        σ' !! seg_image ls = Some (OImage (composite ly)).
Proof.
  intros Hb Hg Hrgb Hok.
  pose proof (body_run bi gi σ) as H. unfold wp, body_post in H.
  destruct H as [_ H]; [by eexists|].
  rewrite Hb, Hg, (render_rgb _ _ _ Hrgb) in H.
  fold (resize_refuses base t) in H. rewrite decide_False in H by done.
  destruct (outcome (display_segmentation_body bi gi) σ) as [ls|e]; [|done].
  by exists ls.
Qed.

Lemma to_byte_length t : length (t_data (to_byte t)) = length (t_data t).
Proof. unfold to_byte. case_decide; [done|]. cbn. by rewrite length_fmap. Qed.

Lemma mask_labels_length size t :
  tensor_wf t → length (mask_labels size t) = (size.1 * size.2)%nat.
Proof.
  intros Hwf. unfold mask_labels. case_decide as Hs.
  - rewrite to_byte_length, Hwf, <- Hs. unfold label_image_size. cbn. lia.
  - unfold resample_band. by rewrite length_fmap, length_seq.
Qed.

Lemma expected_composite_pixels base px t :
  im_data (composite (expected_layers base px t)) =
  Image32 (zip_with overlay px (mask_labels (im_size base) t)).
Proof.
  unfold expected_layers. cbn [composite im_data]. f_equal.
  rewrite zip_with_fmap_l, zip_with_fmap_r, zip_with_fmap_r. done.
Qed.

Lemma to_byte_reduce t :
  t_dtype t = int64 → to_byte (reduce_labels t) = to_byte t.
Proof.
  intros Hd. unfold to_byte, reduce_labels. cbn [t_dtype]. rewrite Hd.
  rewrite !decide_False by done. unfold byte_tensor. cbn [t_shape t_data].
  f_equal. rewrite <- list_fmap_compose. apply list_fmap_ext. intros _ v _.
  cbn. rewrite !wrap_uint8_mod. apply Z.mod_mod. lia.
Qed.

(** * The claims *)

(** C1.  For every class index [i] in 0..20 the color table holds, and the
    palette installed on the mask gives to [i], the triple of channel values
    (i × k) mod 255 for the multipliers k = 2^25 − 1, 2^15 − 1 and
    2^21 − 1, in this order. *)
Theorem palette_formula (i : nat) :
  (i < 21)%nat →
  let c k := (Z.of_nat i * k) mod 255 in
  colors !! i = Some [c (2 ^ 25 - 1); c (2 ^ 15 - 1); c (2 ^ 21 - 1)] ∧
  mask_color (Z.of_nat i) =
    (c (2 ^ 25 - 1), c (2 ^ 15 - 1), c (2 ^ 21 - 1), 255).
Proof.
  intros Hi c. split.
  - by apply colors_lookup.
  - by apply mask_color_class.
Qed.

(** C4.  The 21 class indices 0..20 get pairwise distinct colors: two
    different indices never share their row of the color table, nor their
    palette entry. *)
Theorem palette_distinct (i j : nat) :
  (i < 21)%nat → (j < 21)%nat → i ≠ j →
  colors !! i ≠ colors !! j ∧
  mask_color (Z.of_nat i) ≠ mask_color (Z.of_nat j).
Proof.
  intros Hi Hj Hne. split.
  - rewrite !colors_lookup by done. intros [= H _ _].
    rewrite !red_channel in H by done. lia.
  - rewrite !mask_color_class by done. intros [= H _ _].
    rewrite !red_channel in H by done. lia.
Qed.

(** C3.  For every base image that has an area a composite is returned,
    whatever the shape of the label tensor (smaller, equal or larger).  What
    is returned is the composite: the alpha composite of the mask layer [r]
    over [alpha_image].  Before compositing, the mask layer has been brought
    to the base image's size: its pixels are the colors of the labels
    resized to that size, one per pixel of the base image.  The composite
    has the base image's size too, with one raster entry per pixel. *)
Theorem composite_has_base_size σ bi gi base px t :
  σ !! bi = Some (OImage base) → σ !! gi = Some (OTensor t) →
  rgb_image base px → image_wf base → tensor_wf t →
  let o := outcome (display_segmentation bi gi) σ in
  let σ' := final (display_segmentation bi gi) σ in
  let labels := mask_labels (im_size base) t in
  (¬ zero_area (im_size base) → ∃ l, o = Ok l) ∧
  (∀ l, o = Ok l →
     ∃ ls a m c,
       outcome (display_segmentation_body bi gi) σ = Ok ls ∧
       l = seg_image ls ∧
       σ' !! alpha_image ls = Some (OImage a) ∧
       σ' !! r ls = Some (OImage m) ∧
       σ' !! l = Some (OImage c) ∧
       length labels = ((im_size base).1 * (im_size base).2)%nat ∧
       im_data m = Image32 (set_alpha 128 <$> (mask_color <$> labels)) ∧
       im_size m = im_size base ∧ image_wf m ∧
       im_size a = im_size base ∧ image_wf a ∧
       alpha_composite_image a m = Ok c ∧
       im_mode c = RGBA ∧ im_size c = im_size base ∧ image_wf c).
Proof.
  intros Hb Hg Hrgb Hwb Hwt o σ' labels.
  pose proof (run_rgb σ bi gi base px t Hb Hg Hrgb) as H.
  fold o σ' in H. case_decide as Hr.
  - split.
    + intros Hz. by destruct Hr.
    + intros l Hl. congruence.
  - destruct H as (l & Hl & Hc). split; [by eauto|].
    intros l' Hl'. assert (l' = l) as -> by congruence.
    destruct (body_rgb σ bi gi base px t Hb Hg Hrgb Hr)
      as (ls & Hls & Ha & Hm & Hs).
    rewrite <- display_segmentation_final in Ha, Hm, Hs. fold σ' in Ha, Hm, Hs.
    assert (l = seg_image ls) as Hret.
    { subst o. rewrite display_segmentation_outcome, Hls in Hl.
      cbn in Hl. by injection Hl. }
    assert (length px = ((im_size base).1 * (im_size base).2)%nat) as Hpx.
    { unfold image_wf in Hwb. destruct Hrgb as [_ Hd]. by rewrite Hd in Hwb. }
    assert (length labels = ((im_size base).1 * (im_size base).2)%nat)
      as Hlab by (by apply mask_labels_length).
    eexists ls, _, _, _. split; [done|]. split; [done|].
    split; [exact Ha|]. split; [exact Hm|].
    split; [rewrite Hret; exact Hs|].
    cbn [expected_layers base_layer mask_layer composite im_mode im_size
         im_data].
    split; [done|]. split; [done|]. split; [done|].
    split. { unfold image_wf. cbn. by rewrite !length_fmap. }
    split; [done|].
    split. { unfold image_wf. cbn. by rewrite length_fmap. }
    split; [apply alpha_composite_rgba|]. split; [done|]. split; [done|].
    unfold image_wf. cbn [raster_length im_data im_size].
    rewrite length_zip_with, !length_fmap. fold labels. lia.
Qed.

(** C5, as the code has it.  [display_segmentation] validates nothing
    itself.  With an RGB base image it fails exactly when [resize] refuses
    the request, that is when the base image has no area and the label image
    has another size; the exception is then the imaging library's
    [ValueError].  In every other case, an empty label tensor included, a
    composite is returned. *)
Theorem failure_only_from_resize σ bi gi base px t :
  σ !! bi = Some (OImage base) → σ !! gi = Some (OTensor t) →
  rgb_image base px →
  let o := outcome (display_segmentation bi gi) σ in
  let σ' := final (display_segmentation bi gi) σ in
  ((∃ e, o = Raise e) ↔ resize_refuses base t) ∧
  (∀ e, o = Raise e → e = ValueError "height and width must be > 0") ∧
  (¬ resize_refuses base t → ∃ l c, o = Ok l ∧ σ' !! l = Some (OImage c)).
Proof.
  intros Hb Hg Hrgb o σ'.
  pose proof (run_rgb σ bi gi base px t Hb Hg Hrgb) as H.
  fold o σ' in H. case_decide as Hr.
  - split; [|split].
    + split; [done|]. intros _. by eexists.
    + intros e He. congruence.
    + done.
  - destruct H as (l & Hl & Hc). split; [|split].
    + split; [|done]. intros [e He]. congruence.
    + intros e He. congruence.
    + intros _. by eauto.
Qed.

(** C7.  A call changes neither of its arguments: after it, the base image
    and the label tensor are what they were, and so is every other object
    that existed before.  All writes go to objects that the call created. *)
Theorem display_segmentation_frame σ bi gi ob og :
  σ !! bi = Some ob → σ !! gi = Some og →
  let σ' := final (display_segmentation bi gi) σ in
  σ' !! bi = Some ob ∧ σ' !! gi = Some og ∧
  (∀ l o, σ !! l = Some o → σ' !! l = Some o).
Proof.
  intros Hb Hg σ'.
  destruct (display_segmentation_run bi gi σ) as [Hsub _]; [by eexists|].
  fold σ' in Hsub.
  assert (∀ l o, σ !! l = Some o → σ' !! l = Some o) as H.
  { intros l o Hl. by eapply lookup_weaken. }
  auto.
Qed.

(** C6.  A call is a function of the contents of its two arguments: calling
    again in the store that the first call left behind, or calling in any
    other store that holds the same two objects, yields the same exception
    or an identical composite; the two composites of a repeated call have
    the same bytes. *)
Theorem display_segmentation_deterministic σ σ2 bi gi :
  is_Some (σ !! bi) → is_Some (σ !! gi) →
  let σ1 := final (display_segmentation bi gi) σ in
  call bi gi σ1 = call bi gi σ ∧
  (σ2 !! bi = σ !! bi → σ2 !! gi = σ !! gi → call bi gi σ2 = call bi gi σ) ∧
  (∀ c c', call bi gi σ = Ok (Some (OImage c)) →
           call bi gi σ1 = Ok (Some (OImage c')) →
           tobytes c' = tobytes c).
Proof.
  intros Hb Hg σ1.
  destruct (display_segmentation_run bi gi σ Hb) as [Hsub Hrun].
  rewrite <- call_run in Hrun.
  assert (call bi gi σ1 = call bi gi σ) as Hagain.
  { fold σ1 in Hsub. destruct Hb as [ob Hb], Hg as [og Hg].
    assert (σ1 !! bi = Some ob) as Hb1 by (by eapply lookup_weaken).
    assert (σ1 !! gi = Some og) as Hg1 by (by eapply lookup_weaken).
    destruct (display_segmentation_run bi gi σ1) as [_ Hrun1]; [by eexists|].
    rewrite <- call_run in Hrun1. by rewrite Hrun, Hrun1, Hb, Hg, Hb1, Hg1. }
  split; [done|]. split.
  - intros Hb2 Hg2.
    destruct (display_segmentation_run bi gi σ2) as [_ Hrun2].
    { by rewrite Hb2. }
    rewrite <- call_run in Hrun2. by rewrite Hrun, Hrun2, Hb2, Hg2.
  - intros c c' Hc Hc'. rewrite Hagain, Hc in Hc'. by injection Hc' as ->.
Qed.

Lemma overlay_half_blend b v :
  byte_pixel b →
  let p := overlay b v in
  let m := mask_color v in
  half_blend p.1.1.1 b.1.1.1 m.1.1.1 ∧
  half_blend p.1.1.2 b.1.1.2 m.1.1.2 ∧
  half_blend p.1.2 b.1.2 m.1.2 ∧
  p.2 = 255.
Proof.
  intros Hb p m. pose proof (mask_color_byte v) as Hm. subst p. unfold overlay.
  fold m in Hm |- *.
  destruct b as [[[br bg] bb] ba], m as [[[mr mg] mb] ma].
  rewrite composite_pixel_half. unfold byte_pixel in *. cbn [fst snd] in *.
  destruct Hb as (? & ? & ?), Hm as (? & ? & ?).
  repeat split; by apply blend_half_mean.
Qed.

(** C2.  Every pixel of the composite is the blend of the base pixel at that
    position with the palette color of the mask's (resized) label there,
    the mask lying at alpha 128 over the opaque base.  Each color channel of
    the result is the mean of the base and mask channels, rounded down or
    up, and the result is opaque.  White under black gives 127 in every
    channel. *)
Theorem composite_is_half_blend σ bi gi base px t :
  σ !! bi = Some (OImage base) → σ !! gi = Some (OTensor t) →
  rgb_image base px → Forall byte_pixel px → ¬ resize_refuses base t →
  let labels := mask_labels (im_size base) t in
  ∃ l c cpx,
    outcome (display_segmentation bi gi) σ = Ok l ∧
    final (display_segmentation bi gi) σ !! l = Some (OImage c) ∧
    im_data c = Image32 cpx ∧
    cpx = zip_with overlay px labels ∧
    (∀ i p, cpx !! i = Some p →
       ∃ b v, px !! i = Some b ∧ labels !! i = Some v ∧
              p = composite_pixel (set_alpha 255 b)
                                  (set_alpha 128 (mask_color v)) ∧
              half_blend p.1.1.1 b.1.1.1 (mask_color v).1.1.1 ∧
              half_blend p.1.1.2 b.1.1.2 (mask_color v).1.1.2 ∧
              half_blend p.1.2 b.1.2 (mask_color v).1.2 ∧
              p.2 = 255) ∧
    composite_pixel (set_alpha 255 (255, 255, 255, 255))
                    (set_alpha 128 (0, 0, 0, 255)) = (127, 127, 127, 255).
Proof.
  intros Hb Hg Hrgb Hpx Hok labels.
  pose proof (run_rgb σ bi gi base px t Hb Hg Hrgb) as H.
  rewrite decide_False in H by done. destruct H as (l & Hl & Hc).
  exists l, (composite (expected_layers base px t)),
         (zip_with overlay px labels).
  split; [done|]. split; [done|].
  split; [apply expected_composite_pixels|]. split; [done|].
  split; [|reflexivity].
  intros i p Hp. apply lookup_zip_with_Some in Hp as (b & v & -> & Hbi & Hvi).
  exists b, v. split; [done|]. split; [done|]. split; [done|].
  apply overlay_half_blend. rewrite Forall_lookup in Hpx. by eapply Hpx.
Qed.

(** C8.  When the function returns, [alpha_image] is the base image made
    RGBA with alpha 255 at every pixel and its colors kept, the mask is an
    RGBA image of the base image's size with alpha 128 at every pixel, and
    the returned image is the alpha composite of the mask over
    [alpha_image]; it is RGBA too. *)
Theorem alpha_layers σ bi gi base px t :
  σ !! bi = Some (OImage base) → σ !! gi = Some (OTensor t) →
  rgb_image base px → ¬ resize_refuses base t →
  let σ' := final (display_segmentation bi gi) σ in
  ∃ ls a m s mpx,
    outcome (display_segmentation_body bi gi) σ = Ok ls ∧
    outcome (display_segmentation bi gi) σ = Ok (seg_image ls) ∧
    σ' !! alpha_image ls = Some (OImage a) ∧
    σ' !! r ls = Some (OImage m) ∧
    σ' !! seg_image ls = Some (OImage s) ∧
    im_mode a = RGBA ∧ im_size a = im_size base ∧
    im_data a = Image32 (set_alpha 255 <$> px) ∧
    Forall (λ p : rgba, p.2 = 255) (set_alpha 255 <$> px) ∧
    im_mode m = RGBA ∧ im_size m = im_size base ∧
    im_data m = Image32 mpx ∧ Forall (λ p : rgba, p.2 = 128) mpx ∧
    alpha_composite_image a m = Ok s ∧
    im_mode s = RGBA.
Proof.
  intros Hb Hg Hrgb Hok σ'.
  destruct (body_rgb σ bi gi base px t Hb Hg Hrgb Hok)
    as (ls & Hls & Ha & Hm & Hs).
  subst σ'. rewrite display_segmentation_final, display_segmentation_outcome.
  rewrite Hls. rsimpl.
  eexists ls, _, _, _, _. split; [done|]. split; [done|].
  split; [exact Ha|]. split; [exact Hm|]. split; [exact Hs|].
  cbn [expected_layers base_layer mask_layer composite im_mode im_size
       im_data].
  split; [done|]. split; [done|]. split; [done|].
  split. { apply Forall_fmap, Forall_forall. by intros [[[??]?]?] _. }
  split; [done|]. split; [done|]. split; [done|].
  split. { apply Forall_fmap, Forall_forall. by intros [[[??]?]?] _. }
  split; [|done]. apply alpha_composite_rgba.
Qed.

(** C10.  The cast to unsigned 8-bit comes first: an int64 label tensor
    reaches the image as its values modulo 256.  With an RGB base image the
    call returns a composite whose pixels are the base pixels overlaid with
    the colors of the labels resized from those reduced values; when no
    resizing is needed, the pixel at the place of label [v] is overlaid with
    the palette color of [v mod 256].  The whole outcome is that of the call
    on the tensor whose values were reduced modulo 256 beforehand. *)
Theorem labels_reduced_mod_256 σ bi gi t :
  is_Some (σ !! bi) → σ !! gi = Some (OTensor t) → t_dtype t = int64 →
  let reduced := (λ v, v mod 256) <$> t_data t in
  t_data (to_byte t) = reduced ∧
  (∀ size, mask_labels size (reduce_labels t) = mask_labels size t) ∧
  call bi gi (<[gi := OTensor (reduce_labels t)]> σ) = call bi gi σ ∧
  (∀ base px,
     σ !! bi = Some (OImage base) → rgb_image base px →
     ¬ resize_refuses base t →
     let labels :=
       if decide (label_image_size t = im_size base) then reduced
       else resample_band (label_image_size t) reduced (im_size base) in
     ∃ l c cpx,
       outcome (display_segmentation bi gi) σ = Ok l ∧
       final (display_segmentation bi gi) σ !! l = Some (OImage c) ∧
       call bi gi σ = Ok (Some (OImage c)) ∧
       call bi gi (<[gi := OTensor (reduce_labels t)]> σ) =
         Ok (Some (OImage c)) ∧
       im_data c = Image32 cpx ∧
       cpx = zip_with overlay px labels ∧
       (label_image_size t = im_size base →
        ∀ i v b, t_data t !! i = Some v → px !! i = Some b →
                 cpx !! i =
                 Some (composite_pixel (set_alpha 255 b)
                         (set_alpha 128 (mask_color (v mod 256)))))).
Proof.
  intros Hb Hg Hd reduced.
  assert (t_data (to_byte t) = reduced) as Hbytes.
  { unfold to_byte. rewrite decide_False by (by rewrite Hd).
    cbn [byte_tensor t_data]. apply list_fmap_ext. intros _ v _.
    apply wrap_uint8_mod. }
  assert (call bi gi (<[gi := OTensor (reduce_labels t)]> σ) = call bi gi σ)
    as Hcall.
  { set (σ2 := <[gi := OTensor (reduce_labels t)]> σ).
    assert (σ2 !! gi = Some (OTensor (reduce_labels t))) as Hg2.
    { apply lookup_insert_eq. }
    destruct (display_segmentation_run bi gi σ Hb) as [_ Hrun].
    destruct (display_segmentation_run bi gi σ2) as [_ Hrun2].
    { unfold σ2. rewrite lookup_insert. case_decide; [by eexists|done]. }
    rewrite <- call_run in Hrun, Hrun2. rewrite Hrun, Hrun2, Hg, Hg2.
    unfold rendered, render. rsimpl. rewrite to_byte_reduce by done.
    destruct (decide (gi = bi)) as [->|Hne].
    + rewrite Hg, Hg2. rewrite fromarray_to_byte. by rsimpl.
    + unfold σ2. by rewrite lookup_insert_ne. }
  split; [done|]. split; [|split; [done|]].
  - intros size. unfold mask_labels. by rewrite to_byte_reduce.
  - intros base px Hbase Hrgb Hok labels.
    pose proof (run_rgb σ bi gi base px t Hbase Hg Hrgb) as H.
    rewrite decide_False in H by done. destruct H as (l & Hl & Hc).
    assert (labels = mask_labels (im_size base) t) as Hlabels.
    { unfold labels, mask_labels. by rewrite Hbytes. }
    assert (call bi gi σ =
            Ok (Some (OImage (composite (expected_layers base px t)))))
      as Hobs.
    { rewrite call_run, Hl. cbn [observe]. by rewrite Hc. }
    exists l, (composite (expected_layers base px t)),
           (zip_with overlay px labels).
    split; [done|]. split; [done|]. split; [done|].
    split; [by rewrite Hcall|].
    split; [rewrite Hlabels; apply expected_composite_pixels|].
    split; [done|].
    intros Hsize i v b Hv Hpx. apply lookup_zip_with_Some.
    exists b, (v mod 256). split; [done|]. split; [done|].
    unfold labels. rewrite decide_True by done. unfold reduced.
    by rewrite list_lookup_fmap, Hv.
Qed.

(** ** Labels outside the table *)

(** The table fills the first 21 palette entries only: a label from 21 to
    255 gets whatever the imaging library had put in its palette entry. *)
Lemma mask_color_outside (v : Z) :
  21 ≤ v ≤ 255 →
  mask_color v =
  let '(r, g, b) := fresh_entry (Z.to_nat v) in
  (wrap_uint8 r, wrap_uint8 g, wrap_uint8 b, 255).
Proof.
  intros Hv. unfold mask_color, palette_entry, installed_palette,
    unpack_palette.
  rewrite list_lookup_fmap, lookup_seq_lt by lia. cbn [fmap option_fmap
    option_map default from_option id Nat.add].
  rewrite (lookup_ge_None_2 _ (3 * Z.to_nat v)%nat); [done|].
  rewrite colors_length. lia.
Qed.

Lemma mask_color_background : mask_color 0 = (0, 0, 0, 255).
Proof. apply (mask_color_class 0). lia. Qed.

(** * Further properties of [display_segmentation] *)

(** ** The returned image is a new object *)

Local Opaque colors.

Lemma body_run_fresh bi gi σ :
  is_Some (σ !! bi) →
  wp (display_segmentation_body bi gi) σ (λ o _, locals_fresh σ o).
Proof.
  intros [ob Hb].
  unfold display_segmentation_body, locals_fresh.
  destruct (σ !! gi) as [[t|?]|] eqn:Hg;
    [| by unfold Tensor_byte; do 3 wp_step; rewrite Hg..].
  wp_step. eapply wp_wand; [by apply wp_Tensor_byte|].
  intros ? σ1 (a & -> & Hsub & Ha).
  assert (Hb1 : σ1 !! bi = Some ob) by (by eapply lookup_weaken).
  unfold Tensor_cpu, Tensor_numpy.
  do 3 wp_step. rewrite Ha. cbn [as_tensor]. wp_step.
  do 3 wp_step. rewrite Ha. cbn [as_tensor]. wp_step.
  unfold Image_fromarray.
  do 3 wp_step. rewrite Ha. cbn [as_tensor].
  do 2 wp_step.
  destruct (fromarray_image (to_byte t)) as [i0|e]; [|done].
  wp_step.
  do 2 wp_step. read_store. rewrite Hb1.
  destruct ob as [?|base]; read_store;
    unfold Image_resize; do 3 wp_step; read_store; do 2 wp_step; read_store;
    [done|].
  do 2 wp_step.
  destruct (resize_image (im_size base) i0) as [i1|e]; [|done].
  wp_step. fresh_facts.
  unfold Image_putpalette. do 3 wp_step. read_store. do 2 wp_step.
  destruct (putpalette_image (array_bytes colors) i1) as [i2|e]; [|done].
  wp_step.
  unfold Image_copy. do 3 wp_step. read_store. rewrite Hb1. read_store.
  wp_step. fresh_facts.
  wp_step. unfold Image_putalpha. do 2 wp_step. read_store. do 2 wp_step.
  destruct (putalpha_image 255 base) as [i3|e]; [|done].
  wp_step.
  unfold Image_convert. do 3 wp_step. read_store. do 2 wp_step.
  destruct (convert_image RGBA i2) as [i4|e]; [|done].
  wp_step. fresh_facts.
  wp_step. unfold Image_putalpha. do 2 wp_step. read_store. do 2 wp_step.
  destruct (putalpha_image 128 i4) as [i5|e]; [|done].
  wp_step.
  unfold Image_alpha_composite. do 3 wp_step. read_store.
  do 2 wp_step. read_store. do 2 wp_step.
  destruct (alpha_composite_image i3 i5) as [i6|e]; [|done].
  wp_step. fresh_facts. wp_step.
  cbn [alpha_image r seg_image].
  repeat split; first [by eapply lookup_weaken_None | congruence].
Qed.

Local Transparent colors.

(** X1.  The image that is returned is a new object: its reference was not
    in use before the call, so it is neither of the two arguments nor any
    other object that the caller had.  The same holds for the two layers
    that the call leaves behind, and the three are different objects. *)
Theorem result_is_new_object σ bi gi l :
  is_Some (σ !! bi) →
  outcome (display_segmentation bi gi) σ = Ok l →
  σ !! l = None ∧ l ≠ bi ∧ l ≠ gi ∧
  ∃ ls, outcome (display_segmentation_body bi gi) σ = Ok ls ∧
        l = seg_image ls ∧ locals_fresh σ (Ok ls).
Proof.
  intros Hb Hl.
  pose proof (body_run_fresh bi gi σ Hb) as Hf. unfold wp in Hf.
  destruct (display_segmentation_run bi gi σ Hb) as [_ Hrun].
  rewrite display_segmentation_outcome in Hl.
  destruct (outcome (display_segmentation_body bi gi) σ) as [ls|e] eqn:Hls;
    [|done].
  cbn in Hl. injection Hl as Hl. subst l.
  pose proof Hf as (_ & _ & Hs & _).
  split; [done|]. split; [|split].
  - intros Heq. rewrite Heq in Hs. destruct Hb as [? Hb]. congruence.
  - intros Heq. rewrite Heq in Hs.
    rewrite display_segmentation_outcome, Hls in Hrun.
    cbn [mbind result_bind rbind observe] in Hrun.
    unfold rendered, render in Hrun. rewrite Hs in Hrun.
    by cbn [mbind result_bind rbind as_tensor] in Hrun.
  - by exists ls.
Qed.

(** ** The blend, exactly *)

Lemma weighted_between c b m :
  is_byte b → is_byte m → weighted_blend c b m → between c b m.
Proof.
  unfold is_byte, weighted_blend, between. intros Hb Hm ->. split.
  - apply Z.div_le_lower_bound; lia.
  - apply Z.lt_succ_r, Z.div_lt_upper_bound; lia.
Qed.

Lemma overlay_blended b v :
  byte_pixel b → blended (overlay b v) b (mask_color v).
Proof.
  intros Hb. pose proof (mask_color_byte v) as Hm. unfold overlay.
  destruct b as [[[br bg] bb] ba], (mask_color v) as [[[mr mg] mb] ma].
  rewrite composite_pixel_half. unfold byte_pixel, blended in *.
  cbn [fst snd] in *. destruct Hb as (? & ? & ?), Hm as (? & ? & ?).
  assert (∀ d s, is_byte d → is_byte s →
            weighted_blend (blend_half s d) d s ∧
            between (blend_half s d) d s) as Hblend.
  { intros d s Hd Hs.
    assert (weighted_blend (blend_half s d) d s) as Hw.
    { by apply blend_half_weighted. }
    split; [done|]. by apply weighted_between. }
  repeat split; try apply Hblend; done.
Qed.

(** X2.  The colors of the composite, exactly: at every pixel each color
    channel is (127·base + 128·mask + 127) div 255, the mean of the base
    channel and of the channel of the label's palette color with weights
    127/255 and 128/255, rounded to nearest.  It therefore lies between the
    two, and the pixel is opaque.  The composite has a pixel wherever both
    the base image and the mask have one. *)
Theorem composite_weighted_mean σ bi gi base px t :
  σ !! bi = Some (OImage base) → σ !! gi = Some (OTensor t) →
  rgb_image base px → Forall byte_pixel px → ¬ resize_refuses base t →
  let labels := mask_labels (im_size base) t in
  ∃ l c cpx,
    outcome (display_segmentation bi gi) σ = Ok l ∧
    final (display_segmentation bi gi) σ !! l = Some (OImage c) ∧
    im_data c = Image32 cpx ∧
    length cpx = (length px `min` length labels)%nat ∧
    (∀ i p, cpx !! i = Some p →
       ∃ b v, px !! i = Some b ∧ labels !! i = Some v ∧
              blended p b (mask_color v)).
Proof.
  intros Hb Hg Hrgb Hpx Hok labels.
  pose proof (run_rgb σ bi gi base px t Hb Hg Hrgb) as H.
  rewrite decide_False in H by done. destruct H as (l & Hl & Hc).
  exists l, (composite (expected_layers base px t)),
         (zip_with overlay px labels).
  split; [done|]. split; [done|].
  split; [apply expected_composite_pixels|].
  split; [apply length_zip_with|].
  intros i p Hp. apply lookup_zip_with_Some in Hp as (b & v & -> & Hbi & Hvi).
  exists b, v. split; [done|]. split; [done|].
  apply overlay_blended. rewrite Forall_lookup in Hpx. by eapply Hpx.
Qed.

(** ** The base image's own alpha band *)

Lemma putalpha_color v base px :
  color_image base px →
  putalpha_image v base =
  Ok (Image RGBA (im_size base) (Image32 (set_alpha v <$> px))
            (im_palette base)).
Proof.
  intros [[Hm|Hm] Hd]; unfold putalpha_image; by rewrite Hm, Hd.
Qed.

Lemma render_color base px t :
  color_image base px →
  render (Some (OImage base)) (Some (OTensor t)) =
  if decide (resize_refuses base t)
  then Raise (ValueError "height and width must be > 0")
  else Ok (expected_layers base px t).
Proof.
  intros Hb. unfold render, expected_layers, mask_labels, resize_refuses.
  rsimpl. rewrite fromarray_to_byte. rsimpl.
  unfold resize_image, zero_area. rsimpl.
  assert (∀ labels,
    (r ← putpalette_image (array_bytes colors)
           (Image L (im_size base) (Image8 labels) None);
     a ← putalpha_image 255 base;
     r ← convert_image RGBA r;
     r ← putalpha_image 128 r;
     s ← alpha_composite_image a r;
     Ok (Layers a r s)) =
    Ok (Layers (Image RGBA (im_size base) (Image32 (set_alpha 255 <$> px))
                      (im_palette base))
               (Image RGBA (im_size base)
                      (Image32 (set_alpha 128 <$> (mask_color <$> labels)))
                      None)
               (Image RGBA (im_size base)
                      (Image32 (zip_with composite_pixel
                                  (set_alpha 255 <$> px)
                                  (set_alpha 128 <$> (mask_color <$> labels))))
                      None))) as Htail.
  { intros labels. rewrite putpalette_colors. rsimpl.
    rewrite (putalpha_color _ _ _ Hb). rsimpl.
    unfold convert_image, putalpha_image. rsimpl.
    by rewrite alpha_composite_rgba. }
  destruct (decide (label_image_size t = im_size base)) as [Heq|Hne].
  - rewrite decide_False by tauto. rsimpl. rewrite Heq. apply Htail.
  - destruct (decide ((im_size base).1 < 1 ∨ (im_size base).2 < 1)%nat).
    + by rewrite decide_True.
    + rewrite decide_False by tauto. rsimpl. apply Htail.
Qed.

Lemma same_color_opaque px px' :
  Forall2 same_color px' px → set_alpha 255 <$> px' = set_alpha 255 <$> px.
Proof.
  induction 1 as [|[[[??]?]?] [[[??]?]?] ?? Hc _ IH]; [done|].
  unfold same_color in Hc. cbn in Hc. injection Hc as -> -> ->.
  cbn. by rewrite IH.
Qed.

(** X3.  The base image may be RGB or RGBA, and whatever its fourth band
    holds is ignored: [putalpha(255)] overwrites it on the copy.  Two base
    images of the same size whose pixels have the same colors give the same
    outcome for the same labels. *)
Theorem base_alpha_ignored σ σ' bi gi base base' px px' t :
  σ !! bi = Some (OImage base) → σ' !! bi = Some (OImage base') →
  σ !! gi = Some (OTensor t) → σ' !! gi = Some (OTensor t) →
  color_image base px → color_image base' px' →
  im_size base' = im_size base → Forall2 same_color px' px →
  call bi gi σ' = call bi gi σ.
Proof.
  intros Hb Hb' Hg Hg' Hc Hc' Hsize Hpx.
  destruct (display_segmentation_run bi gi σ) as [_ H]; [by eexists|].
  destruct (display_segmentation_run bi gi σ') as [_ H']; [by eexists|].
  rewrite <- call_run in H, H'. rewrite H, H', Hb, Hb', Hg, Hg'.
  unfold rendered.
  rewrite (render_color _ _ _ Hc), (render_color _ _ _ Hc').
  unfold resize_refuses. rewrite Hsize.
  case_decide; [done|]. rsimpl.
  unfold expected_layers. cbn [composite].
  by rewrite Hsize, (same_color_opaque _ _ Hpx).
Qed.

(** ** The color table, read back *)

(** X4.  Modulo 255 the three multipliers are 1, 127 and 31: the color of
    class [i] is (i, 127·i mod 255, 31·i mod 255).  The class index of a
    table color can thus be read back from its red channel. *)
Theorem class_index_is_red_channel (i : nat) :
  (i < 21)%nat →
  colors !! i = Some [Z.of_nat i; (127 * Z.of_nat i) mod 255;
                      (31 * Z.of_nat i) mod 255] ∧
  (mask_color (Z.of_nat i)).1.1.1 = Z.of_nat i.
Proof.
  intros Hi. split.
  - rewrite colors_lookup by done. rewrite red_channel by done.
    do 3 f_equal.
    + rewrite Z.mul_mod by lia. change ((2 ^ 15 - 1) mod 255) with 127.
      rewrite (Z.mod_small (Z.of_nat i)) by lia. f_equal. lia.
    + f_equal. rewrite Z.mul_mod by lia.
      change ((2 ^ 21 - 1) mod 255) with 31.
      rewrite (Z.mod_small (Z.of_nat i)) by lia. f_equal. lia.
  - rewrite mask_color_class by done. cbn [fst]. by apply red_channel.
Qed.

(** X5.  The table reaches no further than class 20.  For a label from 21 to
    255 the three bytes that [putpalette] would read lie beyond the 63 bytes
    of the table, and the color used for the label is the one that the
    palette held before (its bytes, opaque): the code does not choose it. *)
Theorem outside_table_color (v : Z) :
  21 ≤ v ≤ 255 →
  array_bytes colors !! (3 * Z.to_nat v)%nat = None ∧
  mask_color v =
    let '(r, g, b) := fresh_entry (Z.to_nat v) in
    (wrap_uint8 r, wrap_uint8 g, wrap_uint8 b, 255).
Proof.
  intros Hv. split.
  - apply lookup_ge_None_2. rewrite colors_length. lia.
  - by apply mask_color_outside.
Qed.

End Library.

(** * Concrete calls *)

Lemma white_pixels : Forall byte_pixel [white; white; white; white].
Proof. repeat constructor; cbn; lia. Defined.

Lemma white_base_rgb : rgb_image white_base [white; white; white; white].
Proof. split; reflexivity. Defined.

Lemma white_base_area t : ¬ resize_refuses white_base t.
Proof. intros [_ [H|H]]; cbn in H; lia. Defined.

(** The scenario of a uniform grid of class 0 over a uniform white image:
    the composite is uniform, halfway between white and the black of
    class 0. *)
Example uniform_scenario :
  call nearest_neighbour zero_entry 1%positive 2%positive uniform_store =
  Ok (Some (OImage (Image RGBA (2%nat, 2%nat)
                          (Image32 [(127, 127, 127, 255); (127, 127, 127, 255);
                                    (127, 127, 127, 255); (127, 127, 127, 255)])
                          None))).
Proof. vm_compute. reflexivity. Qed.

(** A palette that starts as a grey ramp shows label 21 as grey, a palette
    that starts black shows it as black. *)
Example label_21_ramp : mask_color ramp_entry 21 = (21, 21, 21, 255).
Proof. vm_compute. reflexivity. Qed.

Example label_21_zero : mask_color zero_entry 21 = (0, 0, 0, 255).
Proof. vm_compute. reflexivity. Qed.

(** [putalpha] writes in place: applied to the base image itself, and not to
    a copy, it would turn the caller's RGB image into an RGBA one. *)
Example putalpha_in_place :
  final (Image_putalpha 1%positive 255) white_store !! 1%positive =
  Some (OImage (Image RGBA (2%nat, 2%nat)
                      (Image32 [white; white; white; white]) None)).
Proof. vm_compute. reflexivity. Qed.

Lemma palette_formula_witness :
  (7 < 21)%nat ∧
  colors !! 7%nat = Some [7; 124; 217] ∧
  mask_color zero_entry 7 = (7, 124, 217, 255).
Proof.
  split; [lia|]. apply (palette_formula zero_entry 7). lia.
Defined.

Lemma palette_distinct_witness :
  colors !! 3%nat ≠ colors !! 20%nat ∧
  mask_color zero_entry 3 ≠ mask_color zero_entry 20.
Proof. apply (palette_distinct zero_entry 3 20); lia. Defined.

Lemma composite_has_base_size_witness :
  ∃ l ls a m c,
    outcome (display_segmentation nearest_neighbour zero_entry
               1%positive 2%positive) white_store = Ok l ∧
    l = seg_image ls ∧
    final (display_segmentation nearest_neighbour zero_entry
             1%positive 2%positive) white_store !! r ls = Some (OImage m) ∧
    final (display_segmentation nearest_neighbour zero_entry
             1%positive 2%positive) white_store !! l = Some (OImage c) ∧
    im_size m = im_size white_base ∧
    alpha_composite_image a m = Ok c ∧
    im_size c = im_size white_base ∧ image_wf c.
Proof.
  destruct (composite_has_base_size nearest_neighbour zero_entry white_store
              1%positive 2%positive white_base [white; white; white; white]
              one_label eq_refl eq_refl white_base_rgb eq_refl eq_refl)
    as [H1 H2].
  destruct H1 as [l Hl]. { intros [H|H]; cbn in H; lia. }
  destruct (H2 l Hl)
    as (ls & a & m & c & _ & Hret & _ & Hm & Hc & _ & _ & Hsm & _ & _ & _
        & Hcomp & _ & Hsc & Hwf).
  exists l, ls, a, m, c. auto 10.
Defined.

(** C5 as stated fails: with a base image without area and a label tensor
    without elements, both of size 0 × 0, the call raises nothing and
    returns a (0 × 0) composite. *)
Lemma degenerate_input_accepted :
  t_data empty_labels = [] ∧
  zero_area (im_size empty_base) ∧
  call nearest_neighbour zero_entry 1%positive 2%positive empty_store =
  Ok (Some (OImage (Image RGBA (0%nat, 0%nat) (Image32 []) None))).
Proof.
  split; [reflexivity|]. split; [left; cbn; lia|]. vm_compute. reflexivity.
Qed.

Lemma failure_only_from_resize_witness :
  let o := outcome (display_segmentation nearest_neighbour zero_entry
                      1%positive 2%positive) white_store in
  let σ' := final (display_segmentation nearest_neighbour zero_entry
                     1%positive 2%positive) white_store in
  ((∃ e, o = Raise e) ↔ resize_refuses white_base one_label) ∧
  (∀ e, o = Raise e → e = ValueError "height and width must be > 0") ∧
  (¬ resize_refuses white_base one_label →
   ∃ l c, o = Ok l ∧ σ' !! l = Some (OImage c)).
Proof.
  apply (failure_only_from_resize nearest_neighbour zero_entry white_store
           1%positive 2%positive white_base [white; white; white; white]
           one_label);
    [reflexivity | reflexivity | exact white_base_rgb].
Defined.

Lemma display_segmentation_frame_witness :
  let σ' := final (display_segmentation nearest_neighbour zero_entry
                     1%positive 2%positive) white_store in
  σ' !! 1%positive = Some (OImage white_base) ∧
  σ' !! 2%positive = Some (OTensor one_label) ∧
  (∀ l o, white_store !! l = Some o → σ' !! l = Some o).
Proof.
  apply (display_segmentation_frame nearest_neighbour zero_entry white_store
           1%positive 2%positive); reflexivity.
Defined.

Lemma display_segmentation_deterministic_witness :
  let σ1 := final (display_segmentation nearest_neighbour zero_entry
                     1%positive 2%positive) white_store in
  call nearest_neighbour zero_entry 1%positive 2%positive σ1 =
  call nearest_neighbour zero_entry 1%positive 2%positive white_store ∧
  (uniform_store !! 1%positive = white_store !! 1%positive →
   uniform_store !! 2%positive = white_store !! 2%positive →
   call nearest_neighbour zero_entry 1%positive 2%positive uniform_store =
   call nearest_neighbour zero_entry 1%positive 2%positive white_store) ∧
  (∀ c c',
     call nearest_neighbour zero_entry 1%positive 2%positive white_store =
       Ok (Some (OImage c)) →
     call nearest_neighbour zero_entry 1%positive 2%positive σ1 =
       Ok (Some (OImage c')) →
     tobytes c' = tobytes c).
Proof.
  apply (display_segmentation_deterministic nearest_neighbour zero_entry
           white_store uniform_store 1%positive 2%positive);
    eexists; reflexivity.
Defined.

Lemma composite_is_half_blend_witness :
  ∃ l c,
    outcome (display_segmentation nearest_neighbour zero_entry
               1%positive 2%positive) white_store = Ok l ∧
    final (display_segmentation nearest_neighbour zero_entry
             1%positive 2%positive) white_store !! l = Some (OImage c) ∧
    im_data c = Image32 [(127, 127, 127, 255); (127, 127, 127, 255);
                         (127, 127, 127, 255); (127, 127, 127, 255)].
Proof.
  destruct (composite_is_half_blend nearest_neighbour zero_entry white_store
              1%positive 2%positive white_base [white; white; white; white]
              one_label eq_refl eq_refl white_base_rgb white_pixels
              (white_base_area one_label))
    as (l & c & cpx & H1 & H2 & H3 & H4 & _).
  exists l, c. split; [exact H1|]. split; [exact H2|].
  rewrite H3, H4. reflexivity.
Defined.

Lemma alpha_layers_witness :
  ∃ ls a m,
    outcome (display_segmentation_body nearest_neighbour zero_entry
               1%positive 2%positive) white_store = Ok ls ∧
    final (display_segmentation nearest_neighbour zero_entry
             1%positive 2%positive) white_store !! alpha_image ls =
      Some (OImage a) ∧
    final (display_segmentation nearest_neighbour zero_entry
             1%positive 2%positive) white_store !! r ls =
      Some (OImage m) ∧
    im_mode a = RGBA ∧ im_mode m = RGBA.
Proof.
  destruct (alpha_layers nearest_neighbour zero_entry white_store
              1%positive 2%positive white_base [white; white; white; white]
              one_label eq_refl eq_refl white_base_rgb
              (white_base_area one_label))
    as (ls & a & m & s & mpx & H1 & _ & H3 & H4 & _ & H6 & _ & _ & _ & H10
        & _).
  exists ls, a, m. auto.
Defined.

Lemma labels_reduced_mod_256_witness :
  t_data (to_byte wide_label) = [5] ∧
  ∃ c,
    call nearest_neighbour zero_entry 1%positive 2%positive wide_store =
      Ok (Some (OImage c)) ∧
    call nearest_neighbour zero_entry 1%positive 2%positive
         (<[2%positive := OTensor (reduce_labels wide_label)]> wide_store) =
      Ok (Some (OImage c)) ∧
    im_data c = Image32 [(130, 190, 205, 255); (130, 190, 205, 255);
                         (130, 190, 205, 255); (130, 190, 205, 255)].
Proof.
  destruct (labels_reduced_mod_256 nearest_neighbour zero_entry wide_store
              1%positive 2%positive wide_label)
    as (H1 & _ & _ & H4); [by eexists | reflexivity | reflexivity |].
  split; [exact H1|].
  destruct (H4 white_base [white; white; white; white] eq_refl white_base_rgb
              (white_base_area wide_label))
    as (l & c & cpx & _ & _ & Hc & Hc' & Hd & Hcpx & _).
  exists c. split; [exact Hc|]. split; [exact Hc'|].
  rewrite Hd, Hcpx. reflexivity.
Defined.

(** * The library's open points *)

Lemma rendered_same_size resample resample' fresh_entry base t ob :
  ob = Some (OImage base) → label_image_size t = im_size base →
  rendered resample fresh_entry ob (Some (OTensor t)) =
  rendered resample' fresh_entry ob (Some (OTensor t)).
Proof.
  intros -> Hsize. unfold rendered, render.
  cbn [mbind result_bind rbind as_tensor as_base].
  rewrite fromarray_to_byte. cbn [mbind result_bind rbind].
  unfold resize_image. cbn [im_size]. by rewrite !decide_True by done.
Qed.

Lemma mask_color_in_table fresh_entry fresh_entry' v :
  0 ≤ v < 21 → mask_color fresh_entry v = mask_color fresh_entry' v.
Proof.
  intros Hv. rewrite <- (Z2Nat.id v) by lia.
  rewrite !mask_color_class by lia. done.
Qed.

Lemma rendered_in_table resample fresh_entry fresh_entry' base px t :
  rgb_image base px →
  Forall (λ v, 0 ≤ v < 21) (mask_labels resample (im_size base) t) →
  rendered resample fresh_entry (Some (OImage base)) (Some (OTensor t)) =
  rendered resample fresh_entry' (Some (OImage base)) (Some (OTensor t)).
Proof.
  intros Hrgb Hin. unfold rendered.
  rewrite !(render_rgb _ _ _ _ _ Hrgb).
  case_decide; [done|]. cbn [mbind result_bind rbind].
  unfold expected_layers. cbn [composite]. do 7 f_equal.
  apply Forall_fmap_ext. eapply Forall_impl; [exact Hin|].
  intros v Hv. by apply mask_color_in_table.
Qed.

(** X6.  When the label tensor already has the base image's width and
    height, [resize] only copies: the outcome is the same whatever filter
    the library would have resampled with. *)
Theorem same_size_needs_no_filter resample resample' fresh_entry
    σ bi gi base t :
  σ !! bi = Some (OImage base) → σ !! gi = Some (OTensor t) →
  label_image_size t = im_size base →
  call resample fresh_entry bi gi σ = call resample' fresh_entry bi gi σ.
Proof.
  intros Hb Hg Hsize.
  destruct (display_segmentation_run resample fresh_entry bi gi σ) as [_ H];
    [by eexists|].
  destruct (display_segmentation_run resample' fresh_entry bi gi σ)
    as [_ H']; [by eexists|].
  rewrite <- call_run in H, H'. rewrite H, H', Hg.
  by eapply rendered_same_size.
Qed.

(** X7.  When every label of the mask, once it has the base image's size,
    is a class index from 0 to 20, only entries written from the table are
    looked up: the outcome is the same whatever the palette held before. *)
Theorem in_table_labels_fix_the_colors resample fresh_entry fresh_entry'
    σ bi gi base px t :
  σ !! bi = Some (OImage base) → σ !! gi = Some (OTensor t) →
  rgb_image base px →
  Forall (λ v, 0 ≤ v < 21) (mask_labels resample (im_size base) t) →
  call resample fresh_entry bi gi σ = call resample fresh_entry' bi gi σ.
Proof.
  intros Hb Hg Hrgb Hin.
  destruct (display_segmentation_run resample fresh_entry bi gi σ) as [_ H];
    [by eexists|].
  destruct (display_segmentation_run resample fresh_entry' bi gi σ)
    as [_ H']; [by eexists|].
  rewrite <- call_run in H, H'. rewrite H, H', Hb, Hg.
  by eapply rendered_in_table.
Qed.

(** * Labels from argmax *)

Lemma argmax_scan {score} (greater : score → score → bool) rest best top i :
  (best < i)%nat →
  ((fold_left (argmax_step score greater) rest (best, top, i)).1.1
   < i + length rest)%nat.
Proof.
  revert best top i. induction rest as [|x rest IH]; intros best top i Hlt.
  - cbn. lia.
  - cbn [fold_left argmax_step length].
    destruct (greater x top).
    + specialize (IH i x (S i)). lia.
    + specialize (IH best top (S i)). lia.
Qed.

Lemma argmax_lt {score} (greater : score → score → bool) xs n :
  argmax score greater xs = Some n → (n < length xs)%nat.
Proof.
  destruct xs as [|x rest]; [done|]. cbn [argmax length]. intros [= <-].
  pose proof (argmax_scan greater rest 0 x 1). lia.
Qed.

Lemma omap_length_le {A B} (f : A → option B) (l : list A) :
  (length (omap f l) ≤ length l)%nat.
Proof.
  induction l as [|x l IH]; [done|]. cbn. destruct (f x); cbn; lia.
Qed.

Lemma class_scores_length {score} (o : score_tensor score) p :
  (length (class_scores score o p) ≤ (s_shape o).1.1)%nat.
Proof.
  unfold class_scores. destruct (s_shape o) as [[c h] w]. cbn [fst].
  etrans; [apply omap_length_le|]. by rewrite length_seq.
Qed.

Lemma argmax0_some {score} (greater : score → score → bool)
    (o : score_tensor score) t :
  argmax0 score greater o = Some t →
  t_dtype t = int64 ∧ t_shape t = ((s_shape o).1.2, (s_shape o).2) ∧
  tensor_wf t ∧
  Forall (λ v, 0 ≤ v < Z.of_nat (s_shape o).1.1) (t_data t).
Proof.
  pose proof (class_scores_length o) as Hlen.
  unfold argmax0. unfold class_scores in Hlen |- *.
  destruct (s_shape o) as [[c h] w]. cbn [fst snd] in *.
  intros Ht.
  destruct (mapM _ (seq 0 (h * w))) as [labels|] eqn:Hl; [|done].
  cbn in Ht. injection Ht as <-. cbn [t_dtype t_shape t_data].
  apply mapM_Some in Hl.
  split; [done|]. split; [done|]. split.
  - unfold tensor_wf. cbn. apply Forall2_length in Hl.
    by rewrite <- Hl, length_seq.
  - apply Forall_forall. intros v Hv.
    apply list_elem_of_lookup in Hv as [i Hv].
    destruct (Forall2_lookup_r _ _ _ _ _ Hl Hv) as (p & _ & Hp).
    destruct (argmax score greater _) as [n|] eqn:Hn; [|done].
    cbn in Hp. injection Hp as <-.
    apply argmax_lt in Hn. specialize (Hlen p). lia.
Qed.

Lemma argmax0_exists {score} (greater : score → score → bool)
    (o : score_tensor score) :
  (0 < (s_shape o).1.1)%nat →
  length (s_data o) =
    ((s_shape o).1.1 * ((s_shape o).1.2 * (s_shape o).2))%nat →
  is_Some (argmax0 score greater o).
Proof.
  unfold argmax0, class_scores.
  destruct (s_shape o) as [[c h] w]. cbn [fst snd] in *.
  intros Hc Hd.
  assert (is_Some (mapM (λ p, Z.of_nat <$>
            argmax score greater
              (omap (λ k, s_data o !! (k * (h * w) + p)%nat) (seq 0 c)))
            (seq 0 (h * w)))) as [labels Hl].
  { apply mapM_is_Some. apply Forall_forall. intros p Hp.
    apply elem_of_seq in Hp.
    destruct c as [|c]; [lia|].
    destruct (lookup_lt_is_Some_2 (s_data o) (0 * (h * w) + p))
      as [x Hx]; [lia|].
    change (seq 0 (S c)) with (0%nat :: seq 1 c).
    unfold compose. cbn [omap list_omap]. rewrite Hx. cbn. by eexists. }
  rewrite Hl. by eexists.
Qed.

(** X8.  The labels that [argmax(0)] produces are an int64 tensor of the
    scores' height and width, one label per pixel, and every label is the
    index of a class: it is below the number of classes.  Labels are
    produced whenever there is at least one class and the scores are
    complete. *)
Theorem argmax0_labels {score} (greater : score → score → bool)
    (o : score_tensor score) :
  let classes := (s_shape o).1.1 in
  let h := (s_shape o).1.2 in
  let w := (s_shape o).2 in
  (∀ t, argmax0 score greater o = Some t →
     t_dtype t = int64 ∧ t_shape t = (h, w) ∧ tensor_wf t ∧
     Forall (λ v, 0 ≤ v < Z.of_nat classes) (t_data t)) ∧
  ((0 < classes)%nat → length (s_data o) = (classes * (h * w))%nat →
   is_Some (argmax0 score greater o)).
Proof.
  intros classes h w. split.
  - intros t Ht. by apply (argmax0_some greater).
  - apply argmax0_exists.
Qed.

Lemma argmax_labels_in_table {score} (greater : score → score → bool)
    (o : score_tensor score) resample base t :
  argmax0 score greater o = Some t →
  ((s_shape o).1.1 ≤ 21)%nat →
  im_size base = ((s_shape o).2, (s_shape o).1.2) →
  label_image_size t = im_size base ∧
  Forall (λ v, 0 ≤ v < 21) (mask_labels resample (im_size base) t).
Proof.
  intros Ht Hc Hsize.
  destruct (argmax0_some greater o t Ht) as (Hd & Hs & _ & Hr).
  assert (label_image_size t = im_size base) as Heq.
  { unfold label_image_size. by rewrite Hs, Hsize. }
  split; [done|]. unfold mask_labels. rewrite decide_True by done.
  unfold to_byte. rewrite decide_False by (by rewrite Hd).
  cbn [byte_tensor t_data]. apply Forall_fmap.
  eapply Forall_impl; [exact Hr|]. intros v Hv. cbn beta in Hv |- *.
  unfold compose. rewrite wrap_uint8_small by (unfold is_byte; lia). lia.
Qed.

(** X9.  The notebook's own call.  When the labels are the argmax of the
    scores of at most 21 classes and have the base image's width and
    height, the outcome of [display_segmentation] is settled by the code
    alone: it depends neither on the library's resampling filter nor on
    what a palette holds before it is written. *)
Theorem notebook_call_is_determined {score}
    (greater : score → score → bool) (o : score_tensor score)
    resample resample' fresh_entry fresh_entry' σ bi gi base px t :
  σ !! bi = Some (OImage base) → σ !! gi = Some (OTensor t) →
  rgb_image base px →
  argmax0 score greater o = Some t →
  ((s_shape o).1.1 ≤ 21)%nat →
  im_size base = ((s_shape o).2, (s_shape o).1.2) →
  call resample fresh_entry bi gi σ = call resample' fresh_entry' bi gi σ.
Proof.
  intros Hb Hg Hrgb Ht Hc Hsize.
  destruct (argmax_labels_in_table greater o resample' base t Ht Hc Hsize)
    as [Heq Hin].
  destruct (display_segmentation_run resample fresh_entry bi gi σ) as [_ H];
    [by eexists|].
  destruct (display_segmentation_run resample' fresh_entry' bi gi σ)
    as [_ H']; [by eexists|].
  rewrite <- call_run in H, H'. rewrite H, H', Hb, Hg.
  rewrite (rendered_same_size resample resample' fresh_entry base t _
             eq_refl Heq).
  by apply (rendered_in_table _ _ _ _ px).
Qed.

(** * The background class *)

(** X10.  Class 0, the background, is not left untouched: its table color
    is black, and a pixel whose mask label is 0 is blended with it like any
    other.  Each color channel b of the base image becomes
    (127·b + 127) div 255 there; it never grows, and it shrinks as soon as
    b is at least 2. *)
Theorem background_is_darkened resample fresh_entry σ bi gi base px t :
  σ !! bi = Some (OImage base) → σ !! gi = Some (OTensor t) →
  rgb_image base px → Forall byte_pixel px → ¬ resize_refuses base t →
  let labels := mask_labels resample (im_size base) t in
  let dark b := (127 * b + 127) / 255 in
  ∃ l c cpx,
    outcome (display_segmentation resample fresh_entry bi gi) σ = Ok l ∧
    final (display_segmentation resample fresh_entry bi gi) σ !! l =
      Some (OImage c) ∧
    im_data c = Image32 cpx ∧
    (∀ i p, cpx !! i = Some p → labels !! i = Some 0 →
       ∃ b, px !! i = Some b ∧
            p = (dark b.1.1.1, dark b.1.1.2, dark b.1.2, 255)) ∧
    (∀ b, is_byte b → dark b ≤ b ∧ (2 ≤ b → dark b < b)).
Proof.
  intros Hb Hg Hrgb Hpx Hok labels dark.
  pose proof (run_rgb resample fresh_entry σ bi gi base px t Hb Hg Hrgb) as H.
  rewrite decide_False in H by done. destruct H as (l & Hl & Hc).
  exists l, (composite (expected_layers resample fresh_entry base px t)),
         (zip_with (overlay fresh_entry) px labels).
  split; [done|]. split; [done|].
  split; [apply expected_composite_pixels|]. split.
  - intros i p Hp Hv.
    apply lookup_zip_with_Some in Hp as (b & v & -> & Hbi & Hvi).
    assert (v = 0) as ->.
    { rewrite Hvi in Hv. by injection Hv. }
    exists b. split; [done|].
    rewrite Forall_lookup in Hpx. specialize (Hpx i b Hbi).
    pose proof (overlay_blended fresh_entry b 0 Hpx) as Hbl.
    rewrite mask_color_background in Hbl.
    unfold blended, weighted_blend in Hbl. cbn [fst snd] in Hbl.
    destruct Hbl as ((Hr & _) & (Hgr & _) & (Hbl & _) & Ha).
    destruct (overlay fresh_entry b 0) as [[[pr pg] pb] pa].
    cbn [fst snd] in *. subst dark. cbn beta.
    rewrite Hr, Hgr, Hbl, Ha, !Z.add_0_r. done.
  - intros b [H0 H1]. subst dark. cbn beta. split.
    + apply Z.lt_succ_r, Z.div_lt_upper_bound; lia.
    + intros H2. apply Z.div_lt_upper_bound; lia.
Qed.

(** * Concrete calls, continued *)

Lemma result_is_new_object_witness :
  white_store !! 8%positive = None ∧
  8%positive ≠ 1%positive ∧ 8%positive ≠ 2%positive.
Proof.
  destruct (result_is_new_object nearest_neighbour zero_entry white_store
              1%positive 2%positive 8%positive)
    as (H1 & H2 & H3 & _); [by eexists | reflexivity |].
  auto.
Defined.

Lemma composite_weighted_mean_witness :
  ∃ l c cpx,
    outcome (display_segmentation nearest_neighbour zero_entry
               1%positive 2%positive) white_store = Ok l ∧
    final (display_segmentation nearest_neighbour zero_entry
             1%positive 2%positive) white_store !! l = Some (OImage c) ∧
    im_data c = Image32 cpx ∧ length cpx = 4%nat.
Proof.
  destruct (composite_weighted_mean nearest_neighbour zero_entry white_store
              1%positive 2%positive white_base [white; white; white; white]
              one_label eq_refl eq_refl white_base_rgb white_pixels
              (white_base_area one_label))
    as (l & c & cpx & H1 & H2 & H3 & H4 & _).
  exists l, c, cpx. auto.
Defined.

Lemma base_alpha_ignored_witness :
  call nearest_neighbour zero_entry 1%positive 2%positive clear_store =
  call nearest_neighbour zero_entry 1%positive 2%positive white_store.
Proof.
  apply (base_alpha_ignored nearest_neighbour zero_entry white_store
           clear_store 1%positive 2%positive white_base clear_base
           [white; white; white; white] [clear; clear; clear; clear]
           one_label);
    try reflexivity.
  - split; [by left|reflexivity].
  - split; [by right|reflexivity].
  - repeat constructor.
Defined.

Lemma class_index_is_red_channel_witness :
  colors !! 7%nat = Some [7; 124; 217] ∧
  (mask_color zero_entry 7).1.1.1 = 7.
Proof. apply (class_index_is_red_channel zero_entry 7). lia. Defined.

Lemma outside_table_color_witness :
  array_bytes colors !! 63%nat = None ∧
  mask_color ramp_entry 21 = (21, 21, 21, 255).
Proof. apply (outside_table_color ramp_entry 21). lia. Defined.

Lemma same_size_needs_no_filter_witness :
  call nearest_neighbour zero_entry 1%positive 2%positive uniform_store =
  call flat_filter zero_entry 1%positive 2%positive uniform_store.
Proof.
  apply (same_size_needs_no_filter nearest_neighbour flat_filter zero_entry
           uniform_store 1%positive 2%positive white_base four_labels);
    reflexivity.
Defined.

Lemma in_table_labels_fix_the_colors_witness :
  call nearest_neighbour zero_entry 1%positive 2%positive white_store =
  call nearest_neighbour ramp_entry 1%positive 2%positive white_store.
Proof.
  apply (in_table_labels_fix_the_colors nearest_neighbour zero_entry
           ramp_entry white_store 1%positive 2%positive white_base
           [white; white; white; white] one_label);
    [reflexivity | reflexivity | exact white_base_rgb |].
  apply (bool_decide_unpack _). vm_compute. exact I.
Defined.

Lemma argmax0_labels_witness :
  argmax0 Z Z.gtb small_scores = Some small_labels ∧
  Forall (λ v, 0 ≤ v < 3) (t_data small_labels).
Proof.
  split; [reflexivity|].
  destruct (argmax0_labels Z.gtb small_scores) as [H _].
  by destruct (H small_labels eq_refl) as (_ & _ & _ & Hr).
Defined.

Lemma notebook_call_is_determined_witness :
  call nearest_neighbour zero_entry 1%positive 2%positive small_store =
  call flat_filter ramp_entry 1%positive 2%positive small_store.
Proof.
  apply (notebook_call_is_determined Z.gtb small_scores nearest_neighbour
           flat_filter zero_entry ramp_entry small_store 1%positive
           2%positive wide_base [white; white] small_labels);
    [reflexivity | reflexivity | split; reflexivity | reflexivity
    | cbn; lia | reflexivity].
Defined.

Lemma background_is_darkened_witness :
  ∃ l c,
    outcome (display_segmentation nearest_neighbour zero_entry
               1%positive 2%positive) white_store = Ok l ∧
    final (display_segmentation nearest_neighbour zero_entry
             1%positive 2%positive) white_store !! l = Some (OImage c).
Proof.
  destruct (background_is_darkened nearest_neighbour zero_entry white_store
              1%positive 2%positive white_base [white; white; white; white]
              one_label eq_refl eq_refl white_base_rgb white_pixels
              (white_base_area one_label))
    as (l & c & cpx & H1 & H2 & _).
  exists l, c. auto.
Defined.
